(** * Heron Tennis Ladder: the ladder ranking engine of [src/src/App.jsx]

    A shallow embedding of the score parser, the score validator, the
    result aggregator, the ladder position engine and the three match
    transactions (add, delete, edit), followed by the properties that the
    design specification states about them.

    Modelling conventions.
    - A JavaScript number is an integer of [Z].  The roster positions, the
      counters and the set scores of the ladder are integers; binary64
      rounding is outside the model.  A value that is not a finite number
      ([NaN], [Infinity]) is the [None] of [option Z].
    - A JavaScript string is a [string], a sequence of code units below 256.
      The falsy string is [EmptyString]; a [null] or [undefined] string of
      the component state is represented by it as well, because the code
      only tests such values for truthiness.
    - An array of objects is a [list] of records.  Every function below
      builds fresh objects, so no aliasing is observable.
    - [Date] and [Math.random] belong to the host: the month of a date is a
      section variable, and a fresh match id is an argument. *)

From Stdlib Require Import String Ascii List ZArith Lia Bool Permutation.
From Stdlib Require Import DecimalString.
Import ListNotations.

Local Open Scope string_scope.
Local Open Scope Z_scope.

(* ================================================================= *)
(** ** Host strings *)

Module JsString.

(** The characters [String.prototype.trim] and the numeric conversion
    strip, restricted to code units below 256: TAB, LF, VT, FF, CR, SP and
    NBSP. *)
Definition isWhiteSpace (c : ascii) : bool :=
  let n := nat_of_ascii c in
  ((n =? 9) || (n =? 10) || (n =? 11) || (n =? 12) || (n =? 13)
   || (n =? 32) || (n =? 160))%nat.

Fixpoint trimStart (s : string) : string :=
  match s with
  | EmptyString => EmptyString
  | String c r => if isWhiteSpace c then trimStart r else s
  end.

Fixpoint trimEnd (s : string) : string :=
  match s with
  | EmptyString => EmptyString
  | String c r =>
      match trimEnd r with
      | EmptyString => if isWhiteSpace c then EmptyString else String c EmptyString
      | r' => String c r'
      end
  end.

(** [s.trim()] *)
Definition trim (s : string) : string := trimEnd (trimStart s).

(** [!s] for a string [s] *)
Definition isEmpty (s : string) : bool :=
  match s with EmptyString => true | String _ _ => false end.

(** [s.includes(sub)] *)
Fixpoint includes (sub s : string) : bool :=
  String.prefix sub s
  || match s with
     | EmptyString => false
     | String _ r => includes sub r
     end.

(** [s.split(sep)] for a non-empty separator: the text is scanned from the
    left; at a position where [sep] starts, the piece read so far is
    emitted and the [length sep] characters of the separator are skipped
    ([skip] counts the ones still to drop). *)
Fixpoint split_go (sep : string) (skip : nat) (cur s : string) : list string :=
  match s with
  | EmptyString => [cur]
  | String c r =>
      match skip with
      | S k => split_go sep k cur r
      | O =>
          if String.prefix sep s
          then cur :: split_go sep (String.length sep - 1) EmptyString r
          else split_go sep 0 (cur ++ String c EmptyString) r
      end
  end.

Definition split (sep s : string) : list string :=
  split_go sep 0 EmptyString s.

(** [parts.join(sep)] *)
Definition join (sep : string) (parts : list string) : string :=
  String.concat sep parts.

Definition NL : string := String (ascii_of_nat 10) EmptyString.
Definition TAB : string := String (ascii_of_nat 9) EmptyString.
Definition DQUOTE : string := String (ascii_of_nat 34) EmptyString.

End JsString.

Import JsString.

(* ================================================================= *)
(** ** Host numbers *)

Definition digitValue (c : ascii) : option Z :=
  let n := nat_of_ascii c in
  if ((48 <=? n) && (n <=? 57))%nat then Some (Z.of_nat n - 48) else None.

Fixpoint digitsValue (acc : Z) (s : string) : option Z :=
  match s with
  | EmptyString => Some acc
  | String c r =>
      match digitValue c with
      | Some d => digitsValue (10 * acc + d) r
      | None => None
      end
  end.

(** A non-empty run of decimal digits. *)
Definition decimalDigits (s : string) : option Z :=
  match s with
  | EmptyString => None
  | String _ _ => digitsValue 0 s
  end.

(** [Number(s)] for a string [s], with [None] for a result that is not a
    finite number.  The conversion strips white space at both ends, reads
    the empty text as [0], and otherwise wants a numeral.  The model covers
    the integer numerals: an optional sign and decimal digits.  A numeral
    with a fraction, an exponent or a radix prefix denotes a number outside
    the integer model and is not covered. *)
Definition js_Number (s : string) : option Z :=
  match trim s with
  | EmptyString => Some 0
  | String c r =>
      if (c =? "+")%char then decimalDigits r
      else if (c =? "-")%char then option_map Z.opp (decimalDigits r)
      else decimalDigits (String c r)
  end.

(** [asNumber(x, fallback)]: [n = Number(x)], and [fallback] unless [n] is
    finite.  On a value that is a number already, [Number] is the
    identity. *)
Definition asNumber (x : option Z) (fallback : Z) : Z :=
  match x with
  | Some n => n
  | None => fallback
  end.

Definition clamp (n lo hi : Z) : Z := Z.min hi (Z.max lo n).

(** [clampMin0(n) = Math.max(0, asNumber(n, 0))] *)
Definition clampMin0 (n : Z) : Z := Z.max 0 (asNumber (Some n) 0).

(* ================================================================= *)
(** ** Score parser *)

Record SetScore : Type := mkSet { p1 : Z; p2 : Z }.

Record ParseResult : Type := mkParse {
  valid : bool;
  sets : list SetScore;
  message : option string   (* [None] is an absent [message] property *)
}.

Definition cantRead (part : string) : ParseResult :=
  {| valid := false;
     sets := [];
     message := Some ("Couldn't read set: " ++ DQUOTE ++ part ++ DQUOTE) |}.

(** The two fields of a token, or [None] where the loop body returns the
    failure before converting them. *)
Definition partFields (part : string) : option (string * string) :=
  if includes "-" part then
    match split "-" part with
    | [a; b] => Some (a, b)
    | _ => None
    end
  else if includes ":" part then
    match split ":" part with
    | [a; b] => Some (a, b)
    | _ => None
    end
  else None.

(** One iteration of the token loop: the set pair pushed, or [None] where
    the iteration returns the failure. *)
Definition parsePart (part : string) : option SetScore :=
  match partFields part with
  | None => None
  | Some (a, b) =>
      match js_Number a, js_Number b with
      | Some n1, Some n2 => Some {| p1 := n1; p2 := n2 |}
      | _, _ => None
      end
  end.

Fixpoint parseLoop (parts : list string) (acc : list SetScore) : ParseResult :=
  match parts with
  | [] => {| valid := true; sets := acc; message := None |}
  | part :: rest =>
      match parsePart part with
      | None => cantRead part
      | Some s => parseLoop rest (acc ++ [s])
      end
  end.

(** [while (cleaned.includes("  ")) cleaned = cleaned.split("  ").join(" ")],
    with the number of iterations bounded by [fuel]. *)
Fixpoint collapseLoop (fuel : nat) (cleaned : string) : string :=
  match fuel with
  | O => cleaned
  | S f =>
      if includes "  " cleaned
      then collapseLoop f (join " " (split "  " cleaned))
      else cleaned
  end.

Definition collapseSpaces (cleaned : string) : string :=
  collapseLoop (String.length cleaned) cleaned.

(** The tokens of a trimmed, non-empty score text. *)
Definition scoreParts (raw : string) : list string :=
  let cleaned := join " " (split TAB (join " " (split NL raw))) in
  let cleaned := collapseSpaces cleaned in
  filter (fun part => negb (isEmpty part)) (split " " cleaned).

Definition parseScore (scoreStr : string) : ParseResult :=
  let raw := trim scoreStr in
  if isEmpty raw then
    {| valid := false; sets := [];
       message := Some "Please enter a score (e.g. 6-4 6-3)." |}
  else parseLoop (scoreParts raw) [].

(* ================================================================= *)
(** ** Score validator *)

Record Validity : Type := mkValidity { ok : bool; vmessage : string }.

Definition reject (msg : string) : Validity := {| ok := false; vmessage := msg |}.

(** The body of the loop over the sets: [None] where the set is legal and
    the loop goes on to the tally, [Some v] where it returns [v]. *)
Definition checkSet (s : SetScore) : option Validity :=
  let a := asNumber (Some (p1 s)) (-1) in
  let b := asNumber (Some (p2 s)) (-1) in
  if (a <? 0) || (b <? 0) then Some (reject "Scores must be non-negative numbers.")
  else if a =? b then Some (reject "A set can't be tied.")
  else
    let hi := Z.max a b in
    let lo := Z.min a b in
    let diff := hi - lo in
    if hi >=? 10 then
      if diff <? 2 then Some (reject "Match tie-break must be won by 2 points.")
      else None
    else
      let ok6 := (hi =? 6) && (lo <=? 4) in
      let ok75 := (hi =? 7) && (lo =? 5) in
      let ok76 := (hi =? 7) && (lo =? 6) in
      if negb (ok6 || ok75 || ok76)
      then Some (reject "Impossible set score. Use 6-x, 7-5, 7-6, or match tie-break 10+.")
      else None.

Fixpoint validateLoop (sets : list SetScore) (p1Sets p2Sets : Z) : Validity :=
  match sets with
  | [] =>
      if p1Sets =? p2Sets
      then reject "Match can't end tied on sets. Add a deciding set / match tie-break."
      else {| ok := true; vmessage := EmptyString |}
  | s :: rest =>
      match checkSet s with
      | Some v => v
      | None =>
          if p1 s >? p2 s
          then validateLoop rest (p1Sets + 1) p2Sets
          else validateLoop rest p1Sets (p2Sets + 1)
      end
  end.

Definition validateSets (sets : list SetScore) : Validity :=
  if (length sets <? 2)%nat
  then reject "Enter at least 2 sets (e.g. 6-4 6-3)."
  else validateLoop sets 0 0.

(* ================================================================= *)
(** ** Result aggregator *)

Record Totals : Type := mkTotals {
  p1Sets : Z; p2Sets : Z; p1Games : Z; p2Games : Z
}.

Fixpoint computeLoop (sets : list SetScore) (t : Totals) : Totals :=
  match sets with
  | [] => t
  | s :: rest =>
      let g1 := p1Games t + p1 s in
      let g2 := p2Games t + p2 s in
      if p1 s >? p2 s
      then computeLoop rest (mkTotals (p1Sets t + 1) (p2Sets t) g1 g2)
      else if p2 s >? p1 s
      then computeLoop rest (mkTotals (p1Sets t) (p2Sets t + 1) g1 g2)
      else computeLoop rest (mkTotals (p1Sets t) (p2Sets t) g1 g2)
  end.

Definition computeFromSets (sets : list SetScore) : Totals :=
  computeLoop sets (mkTotals 0 0 0 0).

(* ================================================================= *)
(** ** Data model *)

Record Player : Type := mkPlayer {
  pid : string;
  position : Z;
  name : string;
  matchesPlayed : Z;
  matchesWon : Z;
  setsWon : Z;
  setsLost : Z;
  gamesWon : Z;
  gamesLost : Z;
  apr : Z;
  may : Z;
  jun : Z;
  jul : Z;
  aug : Z
}.

Record Match : Type := mkMatch {
  id : string;
  date : string;
  positionPlayedFor : Z;
  challengerPid : string;
  opponentPid : string;
  winnerId : string;
  score : string;
  surface : string;
  challengerStartPos : Z;
  opponentStartPos : Z;
  ladderMoveApplied : bool
}.

Record State : Type := mkState {
  playerCount : Z;
  players : list Player;
  matches : list Match
}.

Definition createEmptyPlayer (pos : Z) : Player :=
  {| pid := "p" ++ NilZero.string_of_int (Z.to_int pos);
     position := pos; name := EmptyString;
     matchesPlayed := 0; matchesWon := 0;
     setsWon := 0; setsLost := 0; gamesWon := 0; gamesLost := 0;
     apr := 0; may := 0; jun := 0; jul := 0; aug := 0 |}.

(** [{ ...p, position: z }] *)
Definition setPosition (z : Z) (p : Player) : Player :=
  {| pid := pid p; position := z; name := name p;
     matchesPlayed := matchesPlayed p; matchesWon := matchesWon p;
     setsWon := setsWon p; setsLost := setsLost p;
     gamesWon := gamesWon p; gamesLost := gamesLost p;
     apr := apr p; may := may p; jun := jun p; jul := jul p; aug := aug p |}.

(** [{ ...p, name: n }] *)
Definition setName (n : string) (p : Player) : Player :=
  {| pid := pid p; position := position p; name := n;
     matchesPlayed := matchesPlayed p; matchesWon := matchesWon p;
     setsWon := setsWon p; setsLost := setsLost p;
     gamesWon := gamesWon p; gamesLost := gamesLost p;
     apr := apr p; may := may p; jun := jun p; jul := jul p; aug := aug p |}.

(** [(p) => p.pid === c] *)
Definition pidIs (c : string) (p : Player) : bool := (pid p =? c)%string.

(* ================================================================= *)
(** ** Ladder position engine *)

Record MoveResult : Type := mkMove { mplayers : list Player; applied : bool }.

(** The body of the loop of [applyLadderMove] over the copied roster. *)
Definition shiftDown (c : string) (opponentPos challengerStartPos : Z)
    (p : Player) : Player :=
  if pidIs c p then p
  else if (position p >=? opponentPos) && (position p <? challengerStartPos)
       then setPosition (position p + 1) p
       else p.

(** The body of the loop of [reverseLadderMove]. *)
Definition shiftUp (c : string) (challengerStartPos opponentStartPos : Z)
    (p : Player) : Player :=
  if pidIs c p then p
  else if (position p >? opponentStartPos) && (position p <=? challengerStartPos)
       then setPosition (position p - 1) p
       else p.

(** [const ch = l.find((p) => p.pid === c); if (ch) ch.position = v] *)
Fixpoint setFirstPosition (c : string) (v : Z) (l : list Player) : list Player :=
  match l with
  | [] => []
  | p :: r =>
      if pidIs c p then setPosition v p :: r
      else p :: setFirstPosition c v r
  end.

Definition applyLadderMove (players : list Player) (challengerPid : string)
    (opponentPos : Z) : MoveResult :=
  match find (pidIs challengerPid) players with
  | None => {| mplayers := players; applied := false |}
  | Some challenger =>
      let challengerStartPos := position challenger in
      if challengerStartPos <=? opponentPos
      then {| mplayers := players; applied := false |}
      else
        let moved := map (shiftDown challengerPid opponentPos challengerStartPos) players in
        {| mplayers := setFirstPosition challengerPid opponentPos moved;
           applied := true |}
  end.

Definition reverseLadderMove (players : list Player) (challengerPid : string)
    (challengerStartPos opponentStartPos : Z) : list Player :=
  match find (pidIs challengerPid) players with
  | None => players
  | Some _ =>
      let next := map (shiftUp challengerPid challengerStartPos opponentStartPos) players in
      setFirstPosition challengerPid challengerStartPos next
  end.

(* ================================================================= *)
(** ** Match transaction coordinator *)

Inductive MonthKey : Type := Apr | May | Jun | Jul | Aug.

(** [p[monthKey]] *)
Definition monthCount (k : MonthKey) (p : Player) : Z :=
  match k with
  | Apr => apr p | May => may p | Jun => jun p | Jul => jul p | Aug => aug p
  end.

(** [p[monthKey] = v] on the freshly built object [p] *)
Definition setMonthCount (k : MonthKey) (v : Z) (p : Player) : Player :=
  {| pid := pid p; position := position p; name := name p;
     matchesPlayed := matchesPlayed p; matchesWon := matchesWon p;
     setsWon := setsWon p; setsLost := setsLost p;
     gamesWon := gamesWon p; gamesLost := gamesLost p;
     apr := match k with Apr => v | _ => apr p end;
     may := match k with May => v | _ => may p end;
     jun := match k with Jun => v | _ => jun p end;
     jul := match k with Jul => v | _ => jul p end;
     aug := match k with Aug => v | _ => aug p end |}.

(** [x || 0] on a number *)
Definition orZero (x : Z) : Z := if x =? 0 then 0 else x.

(** The outcome of a transaction: the next snapshot handed to [setState],
    or the message handed to [setError] / [setEditError] (or carried by a
    thrown [Error]), in which case the snapshot stays as it is. *)
Inductive Outcome : Type :=
| Next (s : State)
| Failed (msg : string).

(** The state of the add-match form. *)
Module AddForm.
Record t : Type := mk {
  locked : bool;
  matchDate : string;
  matchPos : string;
  challengerPid : string;
  winner : string;
  surface : string;
  score : string
}.
End AddForm.

(** The state of the edit-match dialog. *)
Record EditForm : Type := mkEditForm {
  editId : string;
  editDate : string;
  editSurface : string;
  editWinner : string;
  editScore : string
}.

(** [parsed.message || "Score not recognised."] *)
Definition messageOr (m : option string) (fallback : string) : string :=
  match m with
  | Some s => if isEmpty s then fallback else s
  | None => fallback
  end.

(** The position update at the end of the add and edit transactions:
    [after = moved.find((x) => x.pid === p.pid);
     after ? { ...p, position: after.position } : p]. *)
Definition takePosition (moved : list Player) (p : Player) : Player :=
  match find (pidIs (pid p)) moved with
  | Some after => setPosition (position after) p
  | None => p
  end.

(** The statistics update of the add transaction, for the challenger [c]
    and the opponent [o]. *)
Definition addStats (c o winner : string) (t : Totals) (monthKey : option MonthKey)
    (p : Player) : Player :=
  if negb (pid p =? c)%string && negb (pid p =? o)%string then p
  else
    let isP1 := (pid p =? c)%string in
    let sWon := if isP1 then p1Sets t else p2Sets t in
    let sLost := if isP1 then p2Sets t else p1Sets t in
    let gWon := if isP1 then p1Games t else p2Games t in
    let gLost := if isP1 then p2Games t else p1Games t in
    let didWin := ((winner =? "p1")%string && isP1)
                  || ((winner =? "p2")%string && negb isP1) in
    let next :=
      {| pid := pid p; position := position p; name := name p;
         matchesPlayed := orZero (matchesPlayed p) + 1;
         matchesWon := orZero (matchesWon p) + (if didWin then 1 else 0);
         setsWon := orZero (setsWon p) + sWon;
         setsLost := orZero (setsLost p) + sLost;
         gamesWon := orZero (gamesWon p) + gWon;
         gamesLost := orZero (gamesLost p) + gLost;
         apr := apr p; may := may p; jun := jun p; jul := jul p; aug := aug p |} in
    match monthKey with
    | Some k => setMonthCount k (orZero (monthCount k p) + 1) next
    | None => next
    end.

(** The statistics reversal of the delete transaction. *)
Definition reverseStats (c o winner : string) (t : Totals) (monthKey : option MonthKey)
    (p : Player) : Player :=
  if negb (pid p =? c)%string && negb (pid p =? o)%string then p
  else
    let isP1 := (pid p =? c)%string in
    let sWon := if isP1 then p1Sets t else p2Sets t in
    let sLost := if isP1 then p2Sets t else p1Sets t in
    let gWon := if isP1 then p1Games t else p2Games t in
    let gLost := if isP1 then p2Games t else p1Games t in
    let didWin := ((winner =? "p1")%string && isP1)
                  || ((winner =? "p2")%string && negb isP1) in
    let out :=
      {| pid := pid p; position := position p; name := name p;
         matchesPlayed := clampMin0 (orZero (matchesPlayed p) - 1);
         matchesWon := clampMin0 (orZero (matchesWon p) - (if didWin then 1 else 0));
         setsWon := clampMin0 (orZero (setsWon p) - sWon);
         setsLost := clampMin0 (orZero (setsLost p) - sLost);
         gamesWon := clampMin0 (orZero (gamesWon p) - gWon);
         gamesLost := clampMin0 (orZero (gamesLost p) - gLost);
         apr := apr p; may := may p; jun := jun p; jul := jul p; aug := aug p |} in
    match monthKey with
    | Some k => setMonthCount k (clampMin0 (orZero (monthCount k p) - 1)) out
    | None => out
    end.

(** The statistics update of the helper [applyMatchDelta] of the edit
    transaction, with [dir] equal to [+1] or [-1]. *)
Definition deltaStats (c o winner : string) (t : Totals) (monthKey : option MonthKey)
    (dir : Z) (p : Player) : Player :=
  if negb (pid p =? c)%string && negb (pid p =? o)%string then p
  else
    let isP1 := (pid p =? c)%string in
    let sWon := if isP1 then p1Sets t else p2Sets t in
    let sLost := if isP1 then p2Sets t else p1Sets t in
    let gWon := if isP1 then p1Games t else p2Games t in
    let gLost := if isP1 then p2Games t else p1Games t in
    let didWin := ((winner =? "p1")%string && isP1)
                  || ((winner =? "p2")%string && negb isP1) in
    let out :=
      {| pid := pid p; position := position p; name := name p;
         matchesPlayed := clampMin0 (orZero (matchesPlayed p) + 1 * dir);
         matchesWon := clampMin0 (orZero (matchesWon p) + (if didWin then 1 else 0) * dir);
         setsWon := clampMin0 (orZero (setsWon p) + sWon * dir);
         setsLost := clampMin0 (orZero (setsLost p) + sLost * dir);
         gamesWon := clampMin0 (orZero (gamesWon p) + gWon * dir);
         gamesLost := clampMin0 (orZero (gamesLost p) + gLost * dir);
         apr := apr p; may := may p; jun := jun p; jul := jul p; aug := aug p |} in
    match monthKey with
    | Some k => setMonthCount k (clampMin0 (orZero (monthCount k p) + 1 * dir)) out
    | None => out
    end.

Section Transactions.

(** [new Date(dateISO).getMonth()], with [None] where the date is invalid
    ([getTime()] is [NaN]).  The month is the one of the host's time zone. *)
Variable Date_getMonth : string -> option Z.

Definition monthKeyFromDateISO (dateISO : string) : option MonthKey :=
  match Date_getMonth dateISO with
  | None => None
  | Some m =>
      if m =? 3 then Some Apr
      else if m =? 4 then Some May
      else if m =? 5 then Some Jun
      else if m =? 6 then Some Jul
      else if m =? 7 then Some Aug
      else None
  end.

(** [actuallyAddMatch]: the snapshot passed to [setState]; [newId] is the
    value of [uid()]. *)
Definition actuallyAddMatch (f : AddForm.t) (newId : string) (state : State)
    : Outcome :=
  if AddForm.locked f then Failed "Locked: Admin unlock required."
  else
    let pos :=
      clamp (match js_Number (AddForm.matchPos f) with
             | Some n => if n =? 0 then 1 else n
             | None => 1
             end) 1 (playerCount state) in
    match find (fun p => position p =? pos) (players state) with
    | None => Failed "Invalid position selected."
    | Some p2 =>
        if isEmpty (trim (name p2))
        then Failed ("The player at position #"
                     ++ NilZero.string_of_int (Z.to_int pos)
                     ++ " has no name yet.")
        else if isEmpty (AddForm.challengerPid f) then Failed "Pick a Challenger."
        else
          match find (pidIs (AddForm.challengerPid f)) (players state) with
          | None => Failed "Challenger is missing / has no name."
          | Some p1 =>
              if isEmpty (trim (name p1))
              then Failed "Challenger is missing / has no name."
              else if (pid p1 =? pid p2)%string
              then Failed "Challenger can't play themselves."
              else
                let parsed := parseScore (AddForm.score f) in
                if negb (valid parsed)
                then Failed (messageOr (message parsed) "Score not recognised.")
                else
                  let validity := validateSets (sets parsed) in
                  if negb (ok validity) then Failed (vmessage validity)
                  else
                    let totals := computeFromSets (sets parsed) in
                    let monthKey := monthKeyFromDateISO (AddForm.matchDate f) in
                    let challengerStartPos := position p1 in
                    let opponentStartPos := position p2 in
                    let shouldMove :=
                      (AddForm.winner f =? "p1")%string
                      && (challengerStartPos >? opponentStartPos) in
                    let moved :=
                      if shouldMove
                      then applyLadderMove (players state) (pid p1) opponentStartPos
                      else {| mplayers := players state; applied := false |} in
                    let matchRecord :=
                      {| id := newId;
                         date := AddForm.matchDate f;
                         positionPlayedFor := opponentStartPos;
                         challengerPid := pid p1;
                         opponentPid := pid p2;
                         winnerId := AddForm.winner f;
                         score := trim (AddForm.score f);
                         surface := AddForm.surface f;
                         challengerStartPos := challengerStartPos;
                         opponentStartPos := opponentStartPos;
                         ladderMoveApplied := applied moved |} in
                    let updatedPlayers :=
                      map (fun p => if negb (applied moved) then p
                                    else takePosition (mplayers moved) p)
                          (map (addStats (pid p1) (pid p2) (AddForm.winner f)
                                         totals monthKey)
                               (players state)) in
                    Next {| playerCount := playerCount state;
                            matches := matchRecord :: matches state;
                            players := updatedPlayers |}
          end
    end.

(** The delete transaction: the body of [deleteMatchConfirmed] from the
    lookup of the match on, with the snapshot that it passes to [setState]
    (the snapshot stays as it is where the match is not found). *)
Definition deleteTransaction (target : string) (state : State) : State :=
  match find (fun m => (id m =? target)%string) (matches state) with
  | None => state
  | Some m =>
      let parsed := parseScore (score m) in
      let nextPlayers := players state in
      let nextPlayers :=
        if valid parsed then
          let validity := validateSets (sets parsed) in
          if ok validity then
            let totals := computeFromSets (sets parsed) in
            let monthKey := monthKeyFromDateISO (date m) in
            map (reverseStats (challengerPid m) (opponentPid m) (winnerId m)
                              totals monthKey) nextPlayers
          else nextPlayers
        else nextPlayers in
      let nextPlayers :=
        if ladderMoveApplied m
        then reverseLadderMove nextPlayers (challengerPid m)
                               (challengerStartPos m) (opponentStartPos m)
        else nextPlayers in
      {| playerCount := playerCount state;
         matches := filter (fun x => negb (id x =? target)%string)
                           (matches state);
         players := nextPlayers |}
  end.

(** [deleteMatchConfirmed]: the confirm dialog runs the transaction once
    its state holds a target id and the pin ([!id || !pin] closes it). *)
Definition deleteMatchConfirmed (deleteTargetId pin : string) (state : State)
    : State :=
  if isEmpty deleteTargetId || isEmpty pin then state
  else deleteTransaction deleteTargetId state.

(** The helper [applyMatchDelta] of the edit transaction; [None] where it
    throws. *)
Definition applyMatchDelta (matchObj : Match) (dir : Z) (ps : list Player)
    : option (list Player) :=
  let parsed := parseScore (score matchObj) in
  if negb (valid parsed) then None
  else
    let v := validateSets (sets parsed) in
    if negb (ok v) then None
    else
      let totals := computeFromSets (sets parsed) in
      let monthKey := monthKeyFromDateISO (date matchObj) in
      Some (map (deltaStats (challengerPid matchObj) (opponentPid matchObj)
                            (winnerId matchObj) totals monthKey dir) ps).

(** [actuallySaveEdit]: the snapshot passed to [setState]. *)
Definition actuallySaveEdit (f : EditForm) (state : State) : Outcome :=
  if isEmpty (editId f) then Failed "No match selected."
  else
    match find (fun m => (id m =? editId f)%string) (matches state) with
    | None => Failed "Match not found."
    | Some original =>
        let parsedNew := parseScore (editScore f) in
        if negb (valid parsedNew)
        then Failed (messageOr (message parsedNew) "Score not recognised.")
        else
          let vNew := validateSets (sets parsedNew) in
          if negb (ok vNew) then Failed (vmessage vNew)
          else
            let ps := players state in
            let ps :=
              if ladderMoveApplied original
              then reverseLadderMove ps (challengerPid original)
                                     (challengerStartPos original)
                                     (opponentStartPos original)
              else ps in
            match applyMatchDelta original (-1) ps with
            | None => Failed "Stored score invalid; can't edit safely."
            | Some ps =>
                match find (pidIs (challengerPid original)) ps,
                      find (pidIs (opponentPid original)) ps with
                | Some p1, Some p2 =>
                    let challengerStartPos := position p1 in
                    let opponentStartPos := position p2 in
                    let shouldMove :=
                      (editWinner f =? "p1")%string
                      && (challengerStartPos >? opponentStartPos) in
                    let moved :=
                      if shouldMove
                      then applyLadderMove ps (pid p1) opponentStartPos
                      else {| mplayers := ps; applied := false |} in
                    let edited :=
                      {| id := id original;
                         date := editDate f;
                         positionPlayedFor := opponentStartPos;
                         challengerPid := challengerPid original;
                         opponentPid := opponentPid original;
                         winnerId := editWinner f;
                         score := trim (editScore f);
                         surface := editSurface f;
                         challengerStartPos := challengerStartPos;
                         opponentStartPos := opponentStartPos;
                         ladderMoveApplied := applied moved |} in
                    let ps := map (takePosition (mplayers moved)) ps in
                    match applyMatchDelta edited 1 ps with
                    | None => Failed "Stored score invalid; can't edit safely."
                    | Some ps =>
                        Next {| playerCount := playerCount state;
                                players := ps;
                                matches :=
                                  map (fun m => if (id m =? id edited)%string
                                                then edited else m)
                                      (matches state) |}
                    end
                | _, _ => Failed "Players missing."
                end
            end
    end.

End Transactions.

(* ================================================================= *)
(** ** The validation rules in the words of the specification

    These definitions follow section 4.2 of the specification; they are
    compared with [validateSets] below. *)

(** A set is legal: both sides are non-negative and unequal; with [hi] and
    [lo] the larger and the smaller side, a set with [hi >= 10] is a match
    tie-break won by two, and a set with [hi < 10] is 6-x with [x <= 4],
    7-5 or 7-6. *)
Definition legalSet (s : SetScore) : Prop :=
  0 <= p1 s /\ 0 <= p2 s /\ p1 s <> p2 s
  /\ (let hi := Z.max (p1 s) (p2 s) in
      let lo := Z.min (p1 s) (p2 s) in
      (10 <= hi -> hi - lo >= 2)
      /\ (hi < 10 -> (hi = 6 /\ lo <= 4) \/ (hi = 7 /\ (lo = 5 \/ lo = 6)))).

(** The number of sets each side won. *)
Definition setsWonBySide1 (sets : list SetScore) : Z :=
  Z.of_nat (length (filter (fun s => p2 s <? p1 s) sets)).

Definition setsWonBySide2 (sets : list SetScore) : Z :=
  Z.of_nat (length (filter (fun s => p1 s <? p2 s) sets)).

(* ================================================================= *)
(** ** The data model invariants of the specification (section 3) *)

(** Every counter of a player is non-negative. *)
Definition countersNonNegative (p : Player) : Prop :=
  0 <= matchesPlayed p /\ 0 <= matchesWon p
  /\ 0 <= setsWon p /\ 0 <= setsLost p
  /\ 0 <= gamesWon p /\ 0 <= gamesLost p
  /\ 0 <= apr p /\ 0 <= may p /\ 0 <= jun p /\ 0 <= jul p /\ 0 <= aug p.

(** A roster is well formed: player ids are pairwise distinct, positions
    are pairwise distinct, and no counter is negative. *)
Definition wellFormedRoster (ps : list Player) : Prop :=
  NoDup (map pid ps) /\ NoDup (map position ps) /\ Forall countersNonNegative ps.

(** A function on players that keeps the pid and does not look at the
    position. *)
Definition statsOnly (f : Player -> Player) : Prop :=
  (forall p, pid (f p) = pid p)
  /\ (forall v p, f (setPosition v p) = setPosition v (f p)).

(** The counters and the identity of a player, with the position erased. *)
Definition erasePosition (p : Player) : Player := setPosition 0 p.

(** The separators of a token, in the words of the specification: the
    occurrences of [-] and of [:]. *)
Fixpoint countChar (c : ascii) (s : string) : nat :=
  match s with
  | EmptyString => 0
  | String x r => if (x =? c)%char then S (countChar c r) else countChar c r
  end.

Definition separators (part : string) : nat :=
  (countChar "-" part + countChar ":" part)%nat.

(** The stored score of a match record parses and validates again. *)
Definition storedScoreValid (m : Match) : bool :=
  valid (parseScore (score m)) && ok (validateSets (sets (parseScore (score m)))).


(** What an applied move with target [t] and challenger start position [s]
    does to one player of a roster with distinct pids. *)
Definition moveOne (c : string) (t s : Z) (p : Player) : Player :=
  if pidIs c p then setPosition t (shiftDown c t s p) else shiftDown c t s p.

(* ================================================================= *)
(** ** Sample data

    The five-player ladder of the self tests of the source and of the
    end-to-end scenario of the specification: players [P1] .. [P5] with pids
    [p1] .. [p5] at positions 1 .. 5. *)

Definition namedPlayer (i : Z) : Player :=
  setName ("P" ++ NilZero.string_of_int (Z.to_int i)) (createEmptyPlayer i).

Definition roster5 : list Player := map namedPlayer [1; 2; 3; 4; 5].

(** [p5] beats the player at position 2, and then the player at position 1. *)
Definition afterFirstUpset : list Player :=
  mplayers (applyLadderMove roster5 "p5" 2).

Definition afterSecondUpset : list Player :=
  mplayers (applyLadderMove afterFirstUpset "p5" 1).

(** A host in the UTC time zone: the month of an ISO date [YYYY-MM-DD]. *)
Definition isoMonth (dateISO : string) : option Z :=
  match decimalDigits (substring 5 2 dateISO) with
  | Some m => if (1 <=? m) && (m <=? 12) then Some (m - 1) else None
  | None => None
  end.

(** The snapshot of the scenario, an upset ([p5], at position 5, beats the
    player at position 2) and a defence (the player at position 2 beats the
    challenger [p5]). *)
Definition state0 : State :=
  {| playerCount := 5; players := roster5; matches := [] |}.

Definition upsetForm : AddForm.t :=
  {| AddForm.locked := false;
     AddForm.matchDate := "2026-05-01";
     AddForm.matchPos := "2";
     AddForm.challengerPid := "p5";
     AddForm.winner := "p1";
     AddForm.surface := "Clay";
     AddForm.score := "6-4 6-3" |}.


(** The snapshot of an outcome, or [fallback] where the transaction
    failed. *)
Definition nextOr (fallback : State) (o : Outcome) : State :=
  match o with
  | Next s => s
  | Failed _ => fallback
  end.

Definition stateUpset : State :=
  nextOr state0 (actuallyAddMatch isoMonth upsetForm "m1" state0).


(** The record of the upset on the log of [stateUpset]. *)
Definition upsetRecord : Match :=
  {| id := "m1"; date := "2026-05-01"; positionPlayedFor := 2;
     challengerPid := "p5"; opponentPid := "p2"; winnerId := "p1";
     score := "6-4 6-3"; surface := "Clay";
     challengerStartPos := 5; opponentStartPos := 2;
     ladderMoveApplied := true |}.








(** The edit of match [m1]: a new score and a new date. *)
Definition sampleEdit : EditForm :=
  {| editId := "m1"; editDate := "2026-06-02"; editSurface := "Indoor";
     editWinner := "p2"; editScore := "5-7 3-6" |}.


(* ================================================================= *)
(** ** Further functions of the source *)

Definition DEFAULT_PLAYER_COUNT : Z := 40.
Definition CAPACITY : Z := 60.

(** The positions [1 .. n], in order. *)
Definition positionsUpTo (n : Z) : list Z := map Z.of_nat (seq 1 (Z.to_nat n)).

(** [defaultState()]: the roster is
    [Array.from({ length: CAPACITY }, (_, i) => createEmptyPlayer(i + 1))]. *)
Definition defaultState : State :=
  {| playerCount := DEFAULT_PLAYER_COUNT;
     players := map createEmptyPlayer (positionsUpTo CAPACITY);
     matches := [] |}.


(* ================================================================= *)
(** ** A reference tokeniser

    The tokens of a score text read off in one scan, to compare with the
    split and join pipeline of [parseScore]. *)

(** [s.split(a).join(b)] on single characters, as a map over the text. *)
Fixpoint replaceChar (a b : ascii) (s : string) : string :=
  match s with
  | EmptyString => EmptyString
  | String c r => String (if (c =? a)%char then b else c) (replaceChar a b r)
  end.

(** A text without its first character. *)
Definition dropFirst (s : string) : string :=
  match s with
  | EmptyString => EmptyString
  | String _ r => r
  end.

(** The separator of the last split of [parseScore]. *)
Definition isSpace (c : ascii) : bool := (c =? " ")%char.

(** The characters that separate the tokens: space, line feed and tab. *)
Definition isBlank (c : ascii) : bool :=
  (c =? " ")%char || (c =? ascii_of_nat 10)%char || (c =? ascii_of_nat 9)%char.

(** The maximal runs of characters that are not [blank], from the left to
    the right; [cur] is the run read so far. *)
Fixpoint runsFrom (blank : ascii -> bool) (cur s : string) : list string :=
  match s with
  | EmptyString => if isEmpty cur then [] else [cur]
  | String c r =>
      if blank c
      then if isEmpty cur then runsFrom blank EmptyString r
           else cur :: runsFrom blank EmptyString r
      else runsFrom blank (cur ++ String c EmptyString) r
  end.

Definition tokens (s : string) : list string := runsFrom isBlank EmptyString s.

(** A set pair with the two sides exchanged. *)
Definition swapSides (s : SetScore) : SetScore := {| p1 := p2 s; p2 := p1 s |}.

(* ================================================================= *)
(** ** Cloud storage: the rows of [api/admin.js] and of [fetchCloudState]

    A row is the object of a table row as the query returns it.  A column
    holds a value of its type or [null], the [None] below; the numeric
    columns hold integers.  The [id] column is the key of the [matches]
    table. *)

Record PlayerRow : Type := mkPlayerRow {
  row_pid : option string;
  row_position : option Z;
  row_name : option string;
  matches_played : option Z;
  matches_won : option Z;
  sets_won : option Z;
  sets_lost : option Z;
  games_won : option Z;
  games_lost : option Z;
  row_apr : option Z;
  row_may : option Z;
  row_jun : option Z;
  row_jul : option Z;
  row_aug : option Z
}.

Record MatchRow : Type := mkMatchRow {
  row_id : string;
  row_date : option string;
  position_played_for : option Z;
  challenger_pid : option string;
  opponent_pid : option string;
  winner_id : option string;
  row_score : option string;
  row_surface : option string;
  challenger_start_pos : option Z;
  opponent_start_pos : option Z;
  ladder_move_applied : option bool
}.

(** [Number(v)] for a number or [null]: [Number(null)] is [0]. *)
Definition Number_orNull (v : option Z) : Z :=
  match v with
  | Some n => n
  | None => 0
  end.

(** [String(v || empty)] for a string or [null], with [empty] the empty
    string *)
Definition stringOrEmpty (v : option string) : string :=
  match v with
  | Some s => s
  | None => EmptyString
  end.

(** The handler of [api/admin.js], action [saveState]: the rows that are
    upserted for the players and for the matches of the payload, without
    the [updated_at] stamp of a player row. *)
Definition pRow (p : Player) : PlayerRow :=
  {| row_pid := Some (pid p);
     row_position := Some (position p);
     row_name := Some (name p);
     matches_played := Some (orZero (matchesPlayed p));
     matches_won := Some (orZero (matchesWon p));
     sets_won := Some (orZero (setsWon p));
     sets_lost := Some (orZero (setsLost p));
     games_won := Some (orZero (gamesWon p));
     games_lost := Some (orZero (gamesLost p));
     row_apr := Some (orZero (apr p));
     row_may := Some (orZero (may p));
     row_jun := Some (orZero (jun p));
     row_jul := Some (orZero (jul p));
     row_aug := Some (orZero (aug p)) |}.

Definition pRows (players : list Player) : list PlayerRow := map pRow players.

Definition mRow (m : Match) : MatchRow :=
  {| row_id := id m;
     row_date := Some (date m);
     position_played_for :=
       Some (if positionPlayedFor m =? 0 then 1 else positionPlayedFor m);
     challenger_pid := Some (challengerPid m);
     opponent_pid := Some (opponentPid m);
     winner_id := Some (if isEmpty (winnerId m) then "p2" else winnerId m);
     row_score := Some (score m);
     row_surface := Some (surface m);
     challenger_start_pos := Some (orZero (challengerStartPos m));
     opponent_start_pos := Some (orZero (opponentStartPos m));
     ladder_move_applied := Some (ladderMoveApplied m) |}.

Definition mRows (matches : list Match) : list MatchRow := map mRow matches.

(** The [Map] [byPos] of [fetchCloudState], as the list of its entries
    with the latest one first: [set] puts an entry in front, and [get]
    finds the first entry with the key. *)
Definition byPosOf (rows : list PlayerRow) : list (Z * PlayerRow) :=
  fold_left (fun m row => (Number_orNull (row_position row), row) :: m)
            rows [].

Definition byPos_get (pos : Z) (m : list (Z * PlayerRow)) : option PlayerRow :=
  option_map snd (find (fun kv => fst kv =? pos) m).

(** The player built for the position [pos] from its row. *)
Definition playerFromRow (pos : Z) (row : PlayerRow) : Player :=
  {| pid := match row_pid row with
            | Some s => s
            | None => "p" ++ NilZero.string_of_int (Z.to_int pos)
            end;
     position := pos;
     name := stringOrEmpty (row_name row);
     matchesPlayed := asNumber (Some (Number_orNull (matches_played row))) 0;
     matchesWon := asNumber (Some (Number_orNull (matches_won row))) 0;
     setsWon := asNumber (Some (Number_orNull (sets_won row))) 0;
     setsLost := asNumber (Some (Number_orNull (sets_lost row))) 0;
     gamesWon := asNumber (Some (Number_orNull (games_won row))) 0;
     gamesLost := asNumber (Some (Number_orNull (games_lost row))) 0;
     apr := asNumber (Some (Number_orNull (row_apr row))) 0;
     may := asNumber (Some (Number_orNull (row_may row))) 0;
     jun := asNumber (Some (Number_orNull (row_jun row))) 0;
     jul := asNumber (Some (Number_orNull (row_jul row))) 0;
     aug := asNumber (Some (Number_orNull (row_aug row))) 0 |}.

Definition matchFromRow (row : MatchRow) : Match :=
  {| id := row_id row;
     date := stringOrEmpty (row_date row);
     positionPlayedFor := asNumber (Some (Number_orNull (position_played_for row))) 1;
     challengerPid := stringOrEmpty (challenger_pid row);
     opponentPid := stringOrEmpty (opponent_pid row);
     winnerId := match winner_id row with
                 | Some w => if (w =? "p1")%string || (w =? "p2")%string
                             then w else "p2"
                 | None => "p2"
                 end;
     score := stringOrEmpty (row_score row);
     surface := stringOrEmpty (row_surface row);
     challengerStartPos := asNumber (Some (Number_orNull (challenger_start_pos row))) 0;
     opponentStartPos := asNumber (Some (Number_orNull (opponent_start_pos row))) 0;
     ladderMoveApplied := match ladder_move_applied row with
                          | Some b => b
                          | None => false
                          end |}.

(** [fetchCloudState], from the data of the three queries on: the rows of
    the players and of the matches in the order of the results, and the
    value of the [playerCount] setting ([None] where the row or the value
    is missing). *)
Definition fetchCloudState (pData : list PlayerRow) (mData : list MatchRow)
    (setting : option Z) : State :=
  let base := defaultState in
  let byPos := byPosOf pData in
  {| playerCount :=
       clamp (asNumber (Some (match setting with
                              | Some v => v
                              | None => playerCount base
                              end))
                       (playerCount base)) 2 CAPACITY;
     players :=
       map (fun pos => match byPos_get pos byPos with
                       | None => createEmptyPlayer pos
                       | Some row => playerFromRow pos row
                       end)
           (positionsUpTo CAPACITY);
     matches := map matchFromRow mData |}.


(** The values of the [Map] of [lastResultByPid]. *)
Inductive Result : Type := win | loss.

(** [lastResultByPid]: the [Map] from a pid to a result, as the list of its
    entries in the order of insertion, with [has] and [get].  [view] is
    [matchesView], of which the loop reads the participants and the winner,
    and [playersLength] is [players.length]. *)

Definition map_has (k : string) (m : list (string * Result)) : bool :=
  existsb (fun kv => (fst kv =? k)%string) m.

Definition map_get (k : string) (m : list (string * Result)) : option Result :=
  option_map snd (find (fun kv => (fst kv =? k)%string) m).

Fixpoint lastResultLoop (view : list Match) (playersLength : nat)
    (m : list (string * Result)) : list (string * Result) :=
  match view with
  | [] => m
  | x :: rest =>
      let m :=
        if negb (map_has (challengerPid x) m)
        then (m ++ [(challengerPid x,
                     if (winnerId x =? "p1")%string then win else loss)])%list
        else m in
      let m :=
        if negb (map_has (opponentPid x) m)
        then (m ++ [(opponentPid x,
                     if (winnerId x =? "p2")%string then win else loss)])%list
        else m in
      if (playersLength <=? length m)%nat then m
      else lastResultLoop rest playersLength m
  end.

Definition lastResultByPid (view : list Match) (playersLength : nat)
    : list (string * Result) :=
  lastResultLoop view playersLength [].

(** The result of a player in the first match of a list that the player
    took part in. *)
Fixpoint firstResult (c : string) (view : list Match) : option Result :=
  match view with
  | [] => None
  | x :: rest =>
      if (challengerPid x =? c)%string
      then Some (if (winnerId x =? "p1")%string then win else loss)
      else if (opponentPid x =? c)%string
      then Some (if (winnerId x =? "p2")%string then win else loss)
      else firstResult c rest
  end.


(* ================================================================= *)
(** ** Histories of the ladder *)



(** The deltas of one match added to the counters of a player. *)
Definition bumpStats (won sWon sLost gWon gLost : Z) (monthKey : option MonthKey)
    (p : Player) : Player :=
  let next :=
    {| pid := pid p; position := position p; name := name p;
       matchesPlayed := matchesPlayed p + 1;
       matchesWon := matchesWon p + won;
       setsWon := setsWon p + sWon;
       setsLost := setsLost p + sLost;
       gamesWon := gamesWon p + gWon;
       gamesLost := gamesLost p + gLost;
       apr := apr p; may := may p; jun := jun p; jul := jul p; aug := aug p |} in
  match monthKey with
  | Some k => setMonthCount k (monthCount k p + 1) next
  | None => next
  end.

(** A player with the counters of a fresh player and no position. *)
Definition blankPlayer (p : Player) : Player :=
  {| pid := pid p; position := 0; name := name p;
     matchesPlayed := 0; matchesWon := 0;
     setsWon := 0; setsLost := 0; gamesWon := 0; gamesLost := 0;
     apr := 0; may := 0; jun := 0; jul := 0; aug := 0 |}.

Section Histories.

Variable Date_getMonth : string -> option Z.






End Histories.

(* ================================================================= *)
(** ** Further sample data *)

(** The snapshot after the edit [sampleEdit] of the upset. *)
Definition stateEdited : State :=
  nextOr stateUpset (actuallySaveEdit isoMonth sampleEdit stateUpset).

(** A log as the cloud can hold it: the stored score of [m9] has a single
    set. *)
Definition shortScoreRecord : Match :=
  {| id := "m9"; date := "2026-05-03"; positionPlayedFor := 2;
     challengerPid := "p3"; opponentPid := "p2"; winnerId := "p1";
     score := "6-4"; surface := "Clay";
     challengerStartPos := 3; opponentStartPos := 2;
     ladderMoveApplied := false |}.

Definition stateShortScore : State :=
  {| playerCount := 5; players := roster5; matches := [shortScoreRecord] |}.

Definition shortScoreEdit : EditForm :=
  {| editId := "m9"; editDate := "2026-05-03"; editSurface := "Clay";
     editWinner := "p1"; editScore := "6-4 6-3" |}.



(* ================================================================= *)
(** * Properties *)

(** ** Records and lists *)

Ltac bool_to_prop :=
  repeat match goal with
  | H : _ && _ = true |- _ => apply andb_true_iff in H; destruct H
  | H : _ || _ = false |- _ => apply orb_false_iff in H; destruct H
  | H : negb _ = true |- _ => apply negb_true_iff in H
  | H : negb _ = false |- _ => apply negb_false_iff in H
  | H : (_ >? _) = _ |- _ => rewrite Z.gtb_ltb in H
  | H : (_ >=? _) = _ |- _ => rewrite Z.geb_leb in H
  | H : (_ <? _) = true |- _ => apply Z.ltb_lt in H
  | H : (_ <? _) = false |- _ => apply Z.ltb_ge in H
  | H : (_ <=? _) = true |- _ => apply Z.leb_le in H
  | H : (_ <=? _) = false |- _ => apply Z.leb_gt in H
  | H : (_ =? _) = true |- _ => apply Z.eqb_eq in H
  | H : (_ =? _) = false |- _ => apply Z.eqb_neq in H
  | H : _ && _ = false |- _ => apply andb_false_iff in H
  | H : _ || _ = true |- _ => apply orb_true_iff in H
  end.

Lemma setPosition_eta (p : Player) : setPosition (position p) p = p.
Proof. destruct p; reflexivity. Qed.

Lemma setPosition_twice (v w : Z) (p : Player) :
  setPosition v (setPosition w p) = setPosition v p.
Proof. reflexivity. Qed.

Lemma pidIs_setPosition (c : string) (v : Z) (p : Player) :
  pidIs c (setPosition v p) = pidIs c p.
Proof. reflexivity. Qed.

Lemma pidIs_true (c : string) (p : Player) : pidIs c p = true <-> pid p = c.
Proof. unfold pidIs. apply String.eqb_eq. Qed.

Lemma pidIs_false (c : string) (p : Player) : pidIs c p = false <-> pid p <> c.
Proof. unfold pidIs. apply String.eqb_neq. Qed.

Lemma NoDup_map_injective {A B : Type} (f : A -> B) (l : list A) :
  NoDup (map f l) ->
  forall x y, In x l -> In y l -> f x = f y -> x = y.
Proof.
  induction l as [|a l IH]; simpl; intros Hnd x y Hx Hy Hxy; [contradiction|].
  inversion Hnd as [|? ? Hnotin Hnd']; subst.
  destruct Hx as [<-|Hx], Hy as [<-|Hy]; auto.
  - exfalso. apply Hnotin. rewrite Hxy. now apply in_map.
  - exfalso. apply Hnotin. rewrite <- Hxy. now apply in_map.
Qed.

Lemma NoDup_map_transfer {A B C : Type} (f : A -> B) (h : A -> C) (l : list A) :
  (forall x y, In x l -> In y l -> f x = f y -> h x = h y) ->
  NoDup (map h l) -> NoDup (map f l).
Proof.
  induction l as [|a l IH]; simpl; intros Hinj Hnd; [constructor|].
  inversion Hnd as [|? ? Hnotin Hnd']; subst.
  constructor.
  - intros Hin. apply in_map_iff in Hin. destruct Hin as (y & Hy & Hyl).
    apply Hnotin. rewrite <- (Hinj y a) by auto. now apply in_map.
  - apply IH; auto.
Qed.

(** ** Strings *)

Lemma trimEnd_cons (c : ascii) (r : string) :
  trimEnd (String c r)
  = match trimEnd r with
    | EmptyString => if isWhiteSpace c then EmptyString else String c EmptyString
    | String c' r' => String c (String c' r')
    end.
Proof. reflexivity. Qed.

Lemma trimEnd_idempotent (s : string) : trimEnd (trimEnd s) = trimEnd s.
Proof.
  induction s as [|c r IH]; [reflexivity|].
  rewrite trimEnd_cons. destruct (trimEnd r) as [|c' r'] eqn:E.
  - destruct (isWhiteSpace c) eqn:W; [reflexivity|].
    rewrite trimEnd_cons. simpl. now rewrite W.
  - rewrite trimEnd_cons, IH. reflexivity.
Qed.

Lemma trimStart_length (s : string) :
  (String.length (trimStart s) <= String.length s)%nat.
Proof.
  induction s as [|c r IH]; simpl; [lia|].
  destruct (isWhiteSpace c); simpl; lia.
Qed.

Lemma trimStart_trimEnd (s : string) :
  trimStart s = s -> trimStart (trimEnd s) = trimEnd s.
Proof.
  destruct s as [|c r]; [reflexivity|]. intros H.
  assert (W : isWhiteSpace c = false).
  { simpl in H. destruct (isWhiteSpace c); [|reflexivity].
    pose proof (trimStart_length r) as Hlen. rewrite H in Hlen.
    simpl in Hlen. lia. }
  rewrite trimEnd_cons. destruct (trimEnd r); rewrite ?W; simpl; now rewrite W.
Qed.

Lemma trimStart_idempotent (s : string) : trimStart (trimStart s) = trimStart s.
Proof.
  induction s as [|c r IH]; simpl; [reflexivity|].
  destruct (isWhiteSpace c) eqn:W; [assumption|]. simpl. now rewrite W.
Qed.

Lemma trim_idempotent (s : string) : trim (trim s) = trim s.
Proof.
  unfold trim.
  rewrite (trimStart_trimEnd (trimStart s)) by apply trimStart_idempotent.
  apply trimEnd_idempotent.
Qed.

(** The score stored on a match record is the trimmed text; parsing it
    again gives the result of parsing the text that was entered. *)
Lemma parseScore_trim (s : string) : parseScore (trim s) = parseScore s.
Proof. unfold parseScore. now rewrite trim_idempotent. Qed.

(** ** The tokens of a score text *)

Lemma length_append (s t : string) :
  String.length (s ++ t) = (String.length s + String.length t)%nat.
Proof. induction s as [|c r IH]; simpl; [reflexivity|]. now rewrite IH. Qed.

Lemma split_go_not_nil (sep : string) (skip : nat) (cur s : string) :
  split_go sep skip cur s <> [].
Proof.
  revert skip cur. induction s as [|c r IH]; intros skip cur; cbn [split_go].
  - discriminate.
  - destruct skip; [|apply IH].
    destruct (String.prefix sep (String c r)); [discriminate|apply IH].
Qed.

Lemma length_join_cons (sep x : string) (l : list string) :
  l <> [] ->
  String.length (join sep (x :: l))
  = (String.length x + String.length sep + String.length (join sep l))%nat.
Proof.
  destruct l as [|y l]; [congruence|]. intros _. unfold join. simpl.
  rewrite !length_append. lia.
Qed.

(** Every cut of a split on two spaces, joined again with one space, makes
    the text one character shorter. *)
Lemma length_join_split_go (skip : nat) (cur s : string) :
  (skip <= String.length s)%nat ->
  (String.length (join " " (split_go "  " skip cur s))
   + skip + (length (split_go "  " skip cur s) - 1)
   = String.length cur + String.length s)%nat.
Proof.
  revert skip cur. induction s as [|c r IH]; intros skip cur Hskip.
  - simpl in *. lia.
  - destruct skip as [|k].
    + cbn [split_go].
      destruct (String.prefix "  " (String c r)) eqn:Hp.
      * change (String.length "  " - 1)%nat with 1%nat.
        assert (Hr : (1 <= String.length r)%nat).
        { cbn [String.prefix] in Hp. destruct (ascii_dec " " c); [|discriminate].
          destruct r; [discriminate|simpl; lia]. }
        pose proof (split_go_not_nil "  " 1 EmptyString r) as Hne.
        pose proof (IH 1%nat EmptyString Hr) as H.
        rewrite length_join_cons by assumption.
        cbn [length String.length] in *.
        destruct (split_go "  " 1 EmptyString r) as [|y l]; [congruence|].
        cbn [length] in *. lia.
      * pose proof (IH 0%nat (cur ++ String c EmptyString)
                      ltac:(lia)) as H.
        rewrite length_append in H. cbn [String.length] in *. lia.
    + cbn [split_go]. cbn [String.length] in Hskip.
      pose proof (IH k cur ltac:(lia)) as H. cbn [String.length]. lia.
Qed.

Lemma split_go_cuts (a : ascii) (sep' cur s : string) :
  includes (String a sep') s = true ->
  (2 <= length (split_go (String a sep') 0 cur s))%nat.
Proof.
  revert cur. induction s as [|c r IH]; intros cur; cbn [includes split_go].
  - discriminate.
  - destruct (String.prefix (String a sep') (String c r)) eqn:Hp.
    + intros _. pose proof (split_go_not_nil (String a sep')
                              (String.length (String a sep') - 1) EmptyString r).
      destruct (split_go _ _ _ r); [congruence|simpl; lia].
    + simpl. intros H. now apply IH.
Qed.

Lemma collapse_step_shorter (s : string) :
  includes "  " s = true ->
  (String.length (join " " (split "  " s)) < String.length s)%nat.
Proof.
  intros H. unfold split.
  pose proof (length_join_split_go 0 EmptyString s ltac:(lia)) as Hlen.
  pose proof (split_go_cuts " " " " EmptyString s H) as Hcuts.
  simpl String.length in Hlen. lia.
Qed.

(** The loop that collapses double spaces ends within the iterations that
    [collapseSpaces] allows: its result holds no double space. *)
Lemma collapseLoop_done (fuel : nat) (s : string) :
  (String.length s <= fuel)%nat ->
  includes "  " (collapseLoop fuel s) = false.
Proof.
  revert s. induction fuel as [|f IH]; intros s Hlen.
  - destruct s; [reflexivity|simpl in Hlen; lia].
  - cbn [collapseLoop]. destruct (includes "  " s) eqn:E; [|exact E].
    apply IH. pose proof (collapse_step_shorter s E). lia.
Qed.

Lemma collapseSpaces_done (s : string) : includes "  " (collapseSpaces s) = false.
Proof. apply collapseLoop_done. lia. Qed.

(** More iterations than [collapseSpaces] allows change nothing. *)
Lemma collapseLoop_enough (fuel : nat) (s : string) :
  (String.length s <= fuel)%nat ->
  collapseLoop fuel s = collapseSpaces s.
Proof.
  unfold collapseSpaces.
  remember (String.length s) as n eqn:Hn.
  assert (Hle : (String.length s <= n)%nat) by lia. clear Hn.
  revert s fuel Hle. induction n as [|n IH]; intros s fuel Hle Hfuel.
  - destruct s; [|simpl in Hle; lia]. destruct fuel; reflexivity.
  - destruct fuel as [|f]; [lia|]. cbn [collapseLoop].
    destruct (includes "  " s) eqn:E; [|reflexivity].
    pose proof (collapse_step_shorter s E). apply IH; lia.
Qed.

(** ** The separators of a token *)

Lemma countChar_append (d : ascii) (s t : string) :
  countChar d (s ++ t) = (countChar d s + countChar d t)%nat.
Proof.
  induction s as [|x r IH]; [reflexivity|]. cbn [append countChar].
  rewrite IH. now destruct (x =? d)%char.
Qed.

Lemma prefix_char (c x : ascii) (r : string) :
  String.prefix (String c EmptyString) (String x r) = (x =? c)%char.
Proof.
  cbn [String.prefix]. destruct (ascii_dec c x) as [->|Hne].
  - rewrite Ascii.eqb_refl. now destruct r.
  - symmetry. apply Ascii.eqb_neq. congruence.
Qed.

Lemma includes_char (c : ascii) (s : string) :
  includes (String c EmptyString) s = negb (countChar c s =? 0)%nat.
Proof.
  induction s as [|x r IH]; [reflexivity|].
  cbn [includes countChar]. rewrite prefix_char, IH.
  destruct (x =? c)%char; [reflexivity|]. reflexivity.
Qed.

(** A split on one character cuts at every occurrence of it. *)
Lemma length_split_go_char (c : ascii) (cur s : string) :
  length (split_go (String c EmptyString) 0 cur s) = S (countChar c s).
Proof.
  revert cur. induction s as [|x r IH]; intros cur; [reflexivity|].
  cbn [split_go countChar]. rewrite prefix_char.
  destruct (x =? c)%char; cbn [length String.length Nat.sub]; now rewrite IH.
Qed.

(** The pieces of a split on [c] hold the occurrences of every other
    character. *)
Lemma countChar_split_go (c d : ascii) (cur s : string) :
  (c =? d)%char = false ->
  list_sum (map (countChar d) (split_go (String c EmptyString) 0 cur s))
  = (countChar d cur + countChar d s)%nat.
Proof.
  intros Hd. revert cur. induction s as [|x r IH]; intros cur.
  - simpl. lia.
  - cbn [split_go countChar]. rewrite prefix_char.
    destruct (x =? c)%char eqn:E.
    + apply Ascii.eqb_eq in E. subst x. rewrite Hd.
      change (String.length (String c EmptyString) - 1)%nat with 0%nat.
      cbn [map]. change (list_sum (?a :: ?l)) with (a + list_sum l)%nat.
      rewrite IH. simpl. lia.
    + rewrite IH. rewrite countChar_append. cbn [countChar].
      destruct (x =? d)%char; lia.
Qed.

Lemma countChar_trimStart (d : ascii) (s : string) :
  isWhiteSpace d = false -> countChar d (trimStart s) = countChar d s.
Proof.
  intros Hd. induction s as [|x r IH]; [reflexivity|].
  cbn [trimStart]. destruct (isWhiteSpace x) eqn:W; [|reflexivity].
  cbn [countChar]. destruct (x =? d)%char eqn:E; [|exact IH].
  apply Ascii.eqb_eq in E. congruence.
Qed.

Lemma countChar_trimEnd (d : ascii) (s : string) :
  isWhiteSpace d = false -> countChar d (trimEnd s) = countChar d s.
Proof.
  intros Hd. induction s as [|x r IH]; [reflexivity|].
  rewrite trimEnd_cons. cbn [countChar]. rewrite <- IH.
  destruct (trimEnd r) as [|y t].
  - destruct (isWhiteSpace x) eqn:W.
    + destruct (x =? d)%char eqn:E; [|reflexivity].
      apply Ascii.eqb_eq in E. congruence.
    + reflexivity.
  - reflexivity.
Qed.

Lemma countChar_trim (d : ascii) (s : string) :
  isWhiteSpace d = false -> countChar d (trim s) = countChar d s.
Proof.
  intros Hd. unfold trim. now rewrite countChar_trimEnd, countChar_trimStart.
Qed.

Lemma countChar_digits (d : ascii) (s : string) (acc n : Z) :
  digitValue d = None -> digitsValue acc s = Some n -> countChar d s = 0%nat.
Proof.
  intros Hd. revert acc. induction s as [|x r IH]; intros acc; [reflexivity|].
  cbn [digitsValue countChar]. destruct (digitValue x) eqn:Hx; [|discriminate].
  intros H. destruct (x =? d)%char eqn:E.
  - apply Ascii.eqb_eq in E. congruence.
  - eapply IH, H.
Qed.

Lemma countChar_decimalDigits (d : ascii) (s : string) (n : Z) :
  digitValue d = None -> decimalDigits s = Some n -> countChar d s = 0%nat.
Proof.
  intros Hd. destruct s; [discriminate|]. apply countChar_digits, Hd.
Qed.

(** A field that converts to a finite number is made of white space, a
    sign and digits: it holds no other character. *)
Lemma js_Number_plain (d : ascii) (s : string) (n : Z) :
  isWhiteSpace d = false ->
  digitValue d = None ->
  ("+" =? d)%char = false ->
  ("-" =? d)%char = false ->
  js_Number s = Some n -> countChar d s = 0%nat.
Proof.
  intros Hw Hd Hplus Hminus. unfold js_Number.
  rewrite <- (countChar_trim d s) by assumption.
  destruct (trim s) as [|x r]; [reflexivity|].
  destruct (x =? "+")%char eqn:Eplus.
  - apply Ascii.eqb_eq in Eplus. subst x. intros H. cbn [countChar].
    rewrite Hplus. now apply (countChar_decimalDigits d r n).
  - destruct (x =? "-")%char eqn:Eminus.
    + apply Ascii.eqb_eq in Eminus. subst x. cbn [countChar]. rewrite Hminus.
      destruct (decimalDigits r) as [m|] eqn:Hr; [|discriminate]. intros _.
      now apply (countChar_decimalDigits d r m).
    + now apply countChar_decimalDigits.
Qed.

Lemma js_Number_no_colon (s : string) (n : Z) :
  js_Number s = Some n -> countChar ":" s = 0%nat.
Proof. now apply js_Number_plain. Qed.

(** A token that the loop of [parseScore] accepts has exactly one
    separator. *)
Lemma parsePart_one_separator (part : string) (s : SetScore) :
  parsePart part = Some s -> separators part = 1%nat.
Proof.
  unfold parsePart, partFields, separators.
  rewrite !includes_char.
  destruct (countChar "-" part =? 0)%nat eqn:Edash; cbn [negb].
  - apply Nat.eqb_eq in Edash. rewrite Edash.
    destruct (countChar ":" part =? 0)%nat eqn:Ecolon; cbn [negb];
      [discriminate|].
    pose proof (length_split_go_char ":" EmptyString part) as Hlen.
    fold (split ":" part) in Hlen.
    destruct (split ":" part) as [|a [|b [|? ?]]]; try discriminate.
    intros _. simpl in Hlen. lia.
  - pose proof (length_split_go_char "-" EmptyString part) as Hlen.
    pose proof (countChar_split_go "-" ":" EmptyString part eq_refl) as Hsum.
    fold (split "-" part) in Hlen, Hsum.
    destruct (split "-" part) as [|a [|b [|? ?]]]; try discriminate.
    destruct (js_Number a) as [n1|] eqn:Ha; [|discriminate].
    destruct (js_Number b) as [n2|] eqn:Hb; [|discriminate].
    intros _. apply js_Number_no_colon in Ha, Hb.
    simpl in Hlen, Hsum. lia.
Qed.

Lemma parsePart_no_separator (part : string) :
  separators part = 0%nat -> parsePart part = None.
Proof.
  intros H. destruct (parsePart part) as [s|] eqn:E; [|reflexivity].
  apply parsePart_one_separator in E. lia.
Qed.

(** The loop stops at the first token it cannot read, names it, and gives
    no set pair. *)
Lemma parseLoop_first_failure (good : list string) (bad : string)
    (rest : list string) (acc : list SetScore) :
  Forall (fun part => parsePart part <> None) good ->
  parsePart bad = None ->
  parseLoop (good ++ bad :: rest)%list acc = cantRead bad.
Proof.
  intros Hgood Hbad. revert acc.
  induction Hgood as [|part good Hpart _ IH]; intros acc; simpl.
  - now rewrite Hbad.
  - destruct (parsePart part); [apply IH|congruence].
Qed.

Lemma parseLoop_failure (parts : list string) (acc : list SetScore) :
  valid (parseLoop parts acc) = false ->
  exists good bad rest,
    parts = (good ++ bad :: rest)%list
    /\ Forall (fun part => parsePart part <> None) good
    /\ parsePart bad = None
    /\ parseLoop parts acc = cantRead bad.
Proof.
  revert acc. induction parts as [|part parts IH]; intros acc; simpl.
  - discriminate.
  - destruct (parsePart part) as [s|] eqn:E.
    + intros H. destruct (IH _ H) as (good & bad & rest & -> & Hg & Hb & Heq).
      exists (part :: good), bad, rest. repeat split; auto.
      constructor; [congruence|assumption].
    + intros _. exists [], part, parts. repeat split; auto.
Qed.

(** The part of the claim on the separators that the parser keeps: a score
    text with a token that has no separator or more than one is rejected;
    the message names the first token that cannot be read, and the result
    holds no set pair. *)
Lemma parseScore_rejects_separator_count (scoreStr part : string) :
  In part (scoreParts (trim scoreStr)) ->
  separators part <> 1%nat ->
  exists bad,
    In bad (scoreParts (trim scoreStr))
    /\ parsePart bad = None
    /\ parseScore scoreStr = cantRead bad
    /\ valid (parseScore scoreStr) = false
    /\ sets (parseScore scoreStr) = [].
Proof.
  intros Hin Hsep. unfold parseScore.
  destruct (isEmpty (trim scoreStr)) eqn:Hraw.
  - destruct (trim scoreStr); [|discriminate]. contradiction.
  - assert (Hv : valid (parseLoop (scoreParts (trim scoreStr)) []) = false).
    { destruct (valid (parseLoop (scoreParts (trim scoreStr)) [])) eqn:Hv;
        [|reflexivity].
      exfalso. revert Hv Hin. generalize (@nil SetScore).
      induction (scoreParts (trim scoreStr)) as [|p ps IH]; intros acc Hv Hin;
        [contradiction|].
      simpl in Hv. destruct (parsePart p) as [s|] eqn:E; [|discriminate].
      destruct Hin as [->|Hin].
      - apply parsePart_one_separator in E. contradiction.
      - eapply IH; eauto. }
    destruct (parseLoop_failure _ _ Hv) as (good & bad & rest & Heq & _ & Hb & Hres).
    exists bad. rewrite Hres. repeat split; auto.
    rewrite Heq. apply in_or_app. right. now left.
Qed.

(** ** The score parser *)


(** C9, the code at the failing input: each token of ["6- 6-"] has one
    separator and an empty second field; [parseScore] accepts both tokens,
    reads the empty fields as 0, and the result passes [validateSets] as
    6-0 6-0.  A lone separator is read as the set 0-0. *)
Theorem empty_field_is_read_as_zero :
  parseScore "6- 6-"
  = {| valid := true; sets := [mkSet 6 0; mkSet 6 0]; message := None |}
  /\ ok (validateSets (sets (parseScore "6- 6-"))) = true
  /\ parseScore "-"
     = {| valid := true; sets := [mkSet 0 0]; message := None |}
  /\ parsePart ":6" = Some (mkSet 0 6).
Proof. repeat split; reflexivity. Qed.

(** ** The score validator *)

Lemma checkSet_rejects (s : SetScore) (v : Validity) :
  checkSet s = Some v -> ok v = false.
Proof.
  unfold checkSet.
  repeat match goal with
         | |- context [if ?b then _ else _] => destruct b
         end; intros [= <-]; reflexivity.
Qed.

Lemma legal_below_ten (hi lo : Z) :
  ((hi =? 6) && (lo <=? 4)) || ((hi =? 7) && (lo =? 5)) || ((hi =? 7) && (lo =? 6))
  = true
  <-> (hi = 6 /\ lo <= 4) \/ (hi = 7 /\ (lo = 5 \/ lo = 6)).
Proof.
  rewrite !orb_true_iff, !andb_true_iff, !Z.eqb_eq, Z.leb_le. tauto.
Qed.

Lemma checkSet_legal (s : SetScore) : checkSet s = None <-> legalSet s.
Proof.
  unfold checkSet, legalSet, asNumber. cbv zeta.
  destruct ((p1 s <? 0) || (p2 s <? 0)) eqn:Hneg.
  { split; [discriminate|]. intros Hleg. exfalso.
    apply orb_true_iff in Hneg. rewrite !Z.ltb_lt in Hneg. lia. }
  apply orb_false_iff in Hneg. rewrite !Z.ltb_ge in Hneg.
  destruct (p1 s =? p2 s) eqn:Htie.
  { split; [discriminate|]. intros Hleg. apply Z.eqb_eq in Htie. lia. }
  apply Z.eqb_neq in Htie. rewrite Z.geb_leb.
  destruct (10 <=? Z.max (p1 s) (p2 s)) eqn:Hhi.
  - apply Z.leb_le in Hhi.
    destruct (Z.max (p1 s) (p2 s) - Z.min (p1 s) (p2 s) <? 2) eqn:Hdiff.
    + apply Z.ltb_lt in Hdiff. split; [discriminate|]. intros Hleg. lia.
    + apply Z.ltb_ge in Hdiff. split; [|reflexivity]. intros _. lia.
  - apply Z.leb_gt in Hhi.
    destruct (((Z.max (p1 s) (p2 s) =? 6) && (Z.min (p1 s) (p2 s) <=? 4))
              || ((Z.max (p1 s) (p2 s) =? 7) && (Z.min (p1 s) (p2 s) =? 5))
              || ((Z.max (p1 s) (p2 s) =? 7) && (Z.min (p1 s) (p2 s) =? 6)))
      eqn:Hok; simpl.
    + apply legal_below_ten in Hok. split; [|reflexivity]. intros _.
      repeat split; lia.
    + split; [discriminate|]. intros (_ & _ & _ & _ & Hleg).
      apply not_true_iff_false in Hok. exfalso.
      apply Hok, legal_below_ten, Hleg, Hhi.
Qed.

Lemma validateLoop_ok (sets : list SetScore) (a b : Z) :
  ok (validateLoop sets a b) = true
  <-> Forall legalSet sets
      /\ a + setsWonBySide1 sets <> b + setsWonBySide2 sets.
Proof.
  revert a b. induction sets as [|s rest IH]; intros a b.
  - unfold setsWonBySide1, setsWonBySide2. simpl.
    destruct (a =? b) eqn:E; simpl; bool_to_prop.
    + split; [discriminate|]. intros [_ H]. lia.
    + split; [|reflexivity]. intros _. split; [constructor|lia].
  - simpl validateLoop. destruct (checkSet s) as [v|] eqn:Hc.
    + rewrite (checkSet_rejects s v Hc). split; [discriminate|].
      intros [H _]. inversion H as [|? ? Hs _]; subst.
      apply checkSet_legal in Hs. congruence.
    + pose proof (proj1 (checkSet_legal s) Hc) as Hs.
      assert (Hne : p1 s <> p2 s) by (destruct Hs as (_ & _ & H & _); exact H).
      unfold setsWonBySide1, setsWonBySide2 in *. simpl filter.
      rewrite Z.gtb_ltb.
      destruct (p2 s <? p1 s) eqn:E1; bool_to_prop.
      * replace (p1 s <? p2 s) with false by (symmetry; apply Z.ltb_ge; lia).
        rewrite IH. simpl length. rewrite Nat2Z.inj_succ.
        split; intros [HF Hcount]; (split; [|lia]).
        -- now constructor.
        -- now inversion HF.
      * replace (p1 s <? p2 s) with true by (symmetry; apply Z.ltb_lt; lia).
        rewrite IH. simpl length. rewrite Nat2Z.inj_succ.
        split; intros [HF Hcount]; (split; [|lia]).
        -- now constructor.
        -- now inversion HF.
Qed.

Lemma validateSets_ok_legal (sets : list SetScore) :
  ok (validateSets sets) = true -> Forall legalSet sets.
Proof.
  unfold validateSets. destruct (length sets <? 2)%nat; [discriminate|].
  intros H. now apply validateLoop_ok in H.
Qed.

(** C2: [validateSets] returns ok if and only if the sequence has at least
    two sets, every set is legal (both sides non-negative and unequal; won
    by two when the larger side is at least 10; otherwise 6-x with
    [x <= 4], 7-5 or 7-6), and the two sides win unequal numbers of sets.
    In particular every sequence of at least two legal sets that does not
    tie on sets is accepted. *)
Theorem validateSets_ok_iff (sets : list SetScore) :
  ok (validateSets sets) = true
  <-> (2 <= length sets)%nat
      /\ Forall legalSet sets
      /\ setsWonBySide1 sets <> setsWonBySide2 sets.
Proof.
  unfold validateSets. destruct (length sets <? 2)%nat eqn:Hlen.
  - apply Nat.ltb_lt in Hlen. split; [discriminate|]. intros [H _]. lia.
  - apply Nat.ltb_ge in Hlen. rewrite validateLoop_ok. simpl. tauto.
Qed.

(** C8, counterexample to the claim as stated: a sequence holding the single
    set 6-4 (and likewise 7-5, 7-6 or 10-8) is not accepted; it is rejected
    for having fewer than two sets. *)
Lemma single_legal_set_is_rejected :
  validateSets [mkSet 6 4] = reject "Enter at least 2 sets (e.g. 6-4 6-3)."
  /\ ok (validateSets [mkSet 7 5]) = false
  /\ ok (validateSets [mkSet 7 6]) = false
  /\ ok (validateSets [mkSet 10 8]) = false.
Proof. repeat split; reflexivity. Qed.

(** C8, as amended: [validateSets] rejects every sequence of a single set.
    On the named scores the check of one set rejects 6-5 and 10-9 (the
    latter as a tie-break not won by two) and passes 6-4, 7-5, 7-6 and 10-8;
    and as the first set of a match whose second set is 6-4 for the same
    side, 6-5 and 10-9 make [validateSets] reject while 6-4, 7-5, 7-6 and
    10-8 make it accept. *)
Theorem named_scores_verdicts :
  (forall s, ok (validateSets [s]) = false)
  /\ (checkSet (mkSet 6 5)
      = Some (reject "Impossible set score. Use 6-x, 7-5, 7-6, or match tie-break 10+.")
      /\ checkSet (mkSet 6 4) = None
      /\ checkSet (mkSet 7 5) = None
      /\ checkSet (mkSet 7 6) = None
      /\ checkSet (mkSet 10 8) = None
      /\ checkSet (mkSet 10 9)
         = Some (reject "Match tie-break must be won by 2 points."))
  /\ (ok (validateSets [mkSet 6 5; mkSet 6 4]) = false
      /\ ok (validateSets [mkSet 6 4; mkSet 6 4]) = true
      /\ ok (validateSets [mkSet 7 5; mkSet 6 4]) = true
      /\ ok (validateSets [mkSet 7 6; mkSet 6 4]) = true
      /\ ok (validateSets [mkSet 10 8; mkSet 6 4]) = true
      /\ ok (validateSets [mkSet 10 9; mkSet 6 4]) = false).
Proof. repeat split; reflexivity. Qed.

(** ** The ladder position engine *)

Section Ladder.

Variable c : string.

Lemma shiftDown_pid t s p : pid (shiftDown c t s p) = pid p.
Proof.
  unfold shiftDown. destruct (pidIs c p); [reflexivity|].
  destruct (_ && _); reflexivity.
Qed.

Lemma shiftUp_pid s t p : pid (shiftUp c s t p) = pid p.
Proof.
  unfold shiftUp. destruct (pidIs c p); [reflexivity|].
  destruct (_ && _); reflexivity.
Qed.

Lemma shiftDown_challenger t s p : pidIs c p = true -> shiftDown c t s p = p.
Proof. unfold shiftDown. now intros ->. Qed.

Lemma shiftUp_challenger s t p : pidIs c p = true -> shiftUp c s t p = p.
Proof. unfold shiftUp. now intros ->. Qed.

Lemma setFirstPosition_length v l : length (setFirstPosition c v l) = length l.
Proof.
  induction l as [|p r IH]; simpl; [reflexivity|].
  destruct (pidIs c p); simpl; congruence.
Qed.


Lemma setFirstPosition_twice v w l :
  setFirstPosition c v (setFirstPosition c w l) = setFirstPosition c v l.
Proof.
  induction l as [|p r IH]; simpl; [reflexivity|].
  destruct (pidIs c p) eqn:E; simpl.
  - now rewrite pidIs_setPosition, E.
  - now rewrite E, IH.
Qed.

Lemma setFirstPosition_same l ch :
  find (pidIs c) l = Some ch -> setFirstPosition c (position ch) l = l.
Proof.
  induction l as [|p r IH]; simpl; [discriminate|].
  destruct (pidIs c p) eqn:E.
  - intros [= <-]. now rewrite setPosition_eta.
  - intros H. now rewrite IH.
Qed.

Lemma setFirstPosition_absent v l :
  find (pidIs c) l = None -> setFirstPosition c v l = l.
Proof.
  induction l as [|p r IH]; simpl; [reflexivity|].
  destruct (pidIs c p); [discriminate|]. intros H. now rewrite IH.
Qed.

(** A loop body that keeps every pid and leaves the challenger's objects
    alone commutes with the final assignment to the challenger. *)
Lemma map_setFirstPosition (f : Player -> Player) v l :
  (forall p, pidIs c p = true -> f p = p) ->
  (forall p, pid (f p) = pid p) ->
  map f (setFirstPosition c v l) = setFirstPosition c v (map f l).
Proof.
  intros Hc Hpid. induction l as [|p r IH]; simpl; [reflexivity|].
  assert (Hk : pidIs c (f p) = pidIs c p) by (unfold pidIs; now rewrite Hpid).
  rewrite Hk. destruct (pidIs c p) eqn:E; simpl.
  - rewrite (Hc p E). now rewrite Hc by (now rewrite pidIs_setPosition).
  - now rewrite IH.
Qed.

Lemma find_setFirstPosition_map (f : Player -> Player) v l :
  (forall p, pid (f p) = pid p) ->
  find (pidIs c) (setFirstPosition c v (map f l))
  = option_map (fun p => setPosition v (f p)) (find (pidIs c) l).
Proof.
  intros Hpid. induction l as [|p r IH]; simpl; [reflexivity|].
  assert (Hk : pidIs c (f p) = pidIs c p) by (unfold pidIs; now rewrite Hpid).
  rewrite Hk. destruct (pidIs c p) eqn:E; simpl.
  - now rewrite pidIs_setPosition, Hk.
  - now rewrite Hk, IH.
Qed.

Lemma nth_error_setFirstPosition_other v l i p :
  nth_error l i = Some p -> pidIs c p = false ->
  nth_error (setFirstPosition c v l) i = Some p.
Proof.
  revert i. induction l as [|q r IH]; intros [|i]; simpl; try discriminate.
  - intros [= ->] E. now rewrite E.
  - intros H E. destruct (pidIs c q); simpl; auto.
Qed.

(** Under distinct pids the two steps of a move are one [map]. *)
Lemma setFirstPosition_map_NoDup (f : Player -> Player) v l :
  NoDup (map pid l) ->
  (forall p, pid (f p) = pid p) ->
  setFirstPosition c v (map f l)
  = map (fun p => if pidIs c p then setPosition v (f p) else f p) l.
Proof.
  intros Hnd Hpid. induction l as [|p r IH]; simpl; [reflexivity|].
  inversion Hnd as [|? ? Hnotin Hnd']; subst.
  assert (Hk : pidIs c (f p) = pidIs c p) by (unfold pidIs; now rewrite Hpid).
  rewrite Hk. destruct (pidIs c p) eqn:E.
  - f_equal. apply map_ext_in. intros q Hq.
    destruct (pidIs c q) eqn:Eq; [|reflexivity].
    exfalso. apply Hnotin. apply pidIs_true in E, Eq.
    rewrite E, <- Eq. now apply in_map.
  - f_equal. now apply IH.
Qed.

Lemma shift_round_trip t s p :
  t < s ->
  (pidIs c p = false -> position p <> s) ->
  shiftUp c s t (shiftDown c t s p) = p.
Proof.
  intros Hts Hp. unfold shiftDown.
  destruct (pidIs c p) eqn:E.
  - now apply shiftUp_challenger.
  - specialize (Hp eq_refl).
    destruct ((position p >=? t) && (position p <? s)) eqn:R.
    + unfold shiftUp. rewrite pidIs_setPosition, E. simpl.
      destruct ((position p + 1 >? t) && (position p + 1 <=? s)) eqn:R'.
      * destruct p; unfold setPosition; simpl. f_equal. lia.
      * exfalso. bool_to_prop. destruct R'; bool_to_prop; lia.
    + unfold shiftUp. rewrite E.
      destruct ((position p >? t) && (position p <=? s)) eqn:R'; [|reflexivity].
      exfalso. bool_to_prop. destruct R; bool_to_prop; lia.
Qed.

End Ladder.

Lemma find_pidIs_none (c : string) (l : list Player) :
  (forall p, In p l -> pid p <> c) -> find (pidIs c) l = None.
Proof.
  intros H. destruct (find (pidIs c) l) as [p|] eqn:E; [|reflexivity].
  apply find_some in E. destruct E as [Hin Hp].
  apply pidIs_true in Hp. now elim (H p Hin).
Qed.

(** The move followed by its reversal, on the roster the move produced. *)
Lemma move_then_reverse (roster : list Player) (c : string) (t : Z) (ch : Player) :
  NoDup (map position roster) ->
  find (pidIs c) roster = Some ch ->
  t < position ch ->
  reverseLadderMove (mplayers (applyLadderMove roster c t)) c (position ch) t
  = roster.
Proof.
  intros Hnd Hfind Hlt. unfold applyLadderMove. rewrite Hfind.
  replace (position ch <=? t) with false by (symmetry; apply Z.leb_gt; lia).
  simpl. unfold reverseLadderMove.
  rewrite find_setFirstPosition_map by (intro; apply shiftDown_pid).
  rewrite Hfind. simpl.
  rewrite map_setFirstPosition
    by (intros; first [now apply shiftUp_challenger | apply shiftUp_pid]).
  rewrite setFirstPosition_twice, map_map.
  rewrite (map_ext_in _ (fun p => p)).
  - rewrite map_id. now apply setFirstPosition_same.
  - intros p Hp. apply shift_round_trip; [assumption|].
    intros E Hpos. apply find_some in Hfind. destruct Hfind as [Hin Hc].
    assert (p = ch) by (eapply NoDup_map_injective; eauto).
    subst p. congruence.
Qed.

(** After an applied move the lookup by pid finds the challenger at the
    target position. *)
Lemma challenger_lands_on_target
    (roster : list Player) (c : string) (t : Z) (ch : Player) :
  find (pidIs c) roster = Some ch ->
  t < position ch ->
  find (pidIs c) (mplayers (applyLadderMove roster c t)) = Some (setPosition t ch)
  /\ applied (applyLadderMove roster c t) = true.
Proof.
  intros Hfind Hlt. unfold applyLadderMove. rewrite Hfind.
  replace (position ch <=? t) with false by (symmetry; apply Z.leb_gt; lia).
  simpl. split; [|reflexivity].
  rewrite find_setFirstPosition_map by (intro; apply shiftDown_pid).
  rewrite Hfind. simpl. f_equal. f_equal.
  apply shiftDown_challenger. apply find_some in Hfind. tauto.
Qed.

(** C10: a challenger id that matches no player of the roster makes
    [applyLadderMove] return the roster as it is with [applied = false], and
    makes [reverseLadderMove] return the roster as it is: nobody is
    shifted. *)
Theorem unknown_challenger_shifts_nobody
    (roster : list Player) (c : string) (s t : Z) :
  (forall p, In p roster -> pid p <> c) ->
  applyLadderMove roster c t = {| mplayers := roster; applied := false |}
  /\ reverseLadderMove roster c s t = roster.
Proof.
  intros H. apply find_pidIs_none in H.
  unfold applyLadderMove, reverseLadderMove. now rewrite H.
Qed.

(** C5: for a challenger id present in the roster ([ch] is the player that
    the lookup by pid returns), [applyLadderMove] leaves the roster as it is
    and reports [applied = false] when the challenger's position is at most
    the target; otherwise it reports [applied = true], puts the challenger
    at the target position, adds exactly one to the position of every other
    player whose position lies in [[target, challengerStartPos)], and gives
    every other player back unchanged. *)
Theorem applyLadderMove_insertion_shift
    (roster : list Player) (c : string) (t : Z) (ch : Player) :
  find (pidIs c) roster = Some ch ->
  (position ch <= t ->
     applyLadderMove roster c t = {| mplayers := roster; applied := false |})
  /\ (t < position ch ->
      let r := applyLadderMove roster c t in
      applied r = true
      /\ length (mplayers r) = length roster
      /\ find (pidIs c) (mplayers r) = Some (setPosition t ch)
      /\ forall i p,
           nth_error roster i = Some p -> pid p <> c ->
           nth_error (mplayers r) i
           = Some (if (t <=? position p) && (position p <? position ch)
                   then setPosition (position p + 1) p
                   else p)).
Proof.
  intros Hfind. unfold applyLadderMove. rewrite Hfind. split.
  - intros Hle. now replace (position ch <=? t) with true
      by (symmetry; apply Z.leb_le; lia).
  - intros Hlt.
    replace (position ch <=? t) with false by (symmetry; apply Z.leb_gt; lia).
    simpl. repeat split.
    + now rewrite setFirstPosition_length, length_map.
    + rewrite find_setFirstPosition_map by (intro; apply shiftDown_pid).
      rewrite Hfind. simpl. f_equal. f_equal.
      apply shiftDown_challenger. apply find_some in Hfind. tauto.
    + intros i p Hi Hp. apply pidIs_false in Hp.
      assert (Hs : shiftDown c t (position ch) p
                   = if (t <=? position p) && (position p <? position ch)
                     then setPosition (position p + 1) p else p).
      { unfold shiftDown. rewrite Hp. now rewrite Z.geb_leb. }
      rewrite <- Hs. apply nth_error_setFirstPosition_other.
      * now rewrite nth_error_map, Hi.
      * unfold pidIs. rewrite shiftDown_pid. exact Hp.
Qed.

(** C1: on a roster whose positions are pairwise distinct, with the
    challenger present at a position strictly greater than the target,
    [applyLadderMove] followed by [reverseLadderMove] with the same
    challenger, the challenger's original position and the target gives the
    original roster back: every player, inside or outside the affected
    interval, has its original position (and every other field). *)
Theorem apply_then_reverse_restores_positions
    (roster : list Player) (c : string) (t : Z) (ch : Player) :
  NoDup (map position roster) ->
  find (pidIs c) roster = Some ch ->
  t < position ch ->
  let back :=
    reverseLadderMove (mplayers (applyLadderMove roster c t)) c (position ch) t in
  back = roster /\ map position back = map position roster.
Proof.
  intros Hnd Hfind Hlt back. subst back.
  rewrite (move_then_reverse roster c t ch Hnd Hfind Hlt). now split.
Qed.

Lemma position_shiftDown (c : string) (t s : Z) (p : Player) :
  pidIs c p = false ->
  position (shiftDown c t s p)
  = if (t <=? position p) && (position p <? s) then position p + 1 else position p.
Proof.
  intros E. unfold shiftDown. rewrite E, Z.geb_leb.
  now destruct (_ && _).
Qed.

Lemma position_shiftUp (c : string) (s t : Z) (p : Player) :
  pidIs c p = false ->
  position (shiftUp c s t p)
  = if (t <? position p) && (position p <=? s) then position p - 1 else position p.
Proof.
  intros E. unfold shiftUp. rewrite E, Z.gtb_ltb.
  now destruct (_ && _).
Qed.

Lemma applyLadderMove_NoDup (roster : list Player) (c : string) (t : Z) :
  NoDup (map pid roster) ->
  NoDup (map position roster) ->
  NoDup (map position (mplayers (applyLadderMove roster c t))).
Proof.
  intros Hpid Hpos. unfold applyLadderMove.
  destruct (find (pidIs c) roster) as [ch|] eqn:Hfind; [|assumption].
  destruct (position ch <=? t) eqn:Hle; [assumption|]. simpl.
  apply Z.leb_gt in Hle.
  rewrite setFirstPosition_map_NoDup by (auto using shiftDown_pid).
  rewrite map_map.
  apply find_some in Hfind. destruct Hfind as [Hch Hc].
  assert (Hone : forall x, In x roster -> pidIs c x = true -> x = ch).
  { intros x Hx Ex. apply (NoDup_map_injective pid roster Hpid); auto.
    apply pidIs_true in Ex, Hc. congruence. }
  assert (Hfree : forall x, In x roster -> pidIs c x = false ->
                            position x <> position ch).
  { intros x Hx Ex Heq.
    assert (x = ch) by (apply (NoDup_map_injective position roster Hpos); auto).
    subst x. congruence. }
  apply (NoDup_map_transfer _ position); [|assumption].
  intros x y Hx Hy.
  destruct (pidIs c x) eqn:Ex, (pidIs c y) eqn:Ey; simpl.
  - intros _. now rewrite (Hone x), (Hone y).
  - rewrite position_shiftDown by assumption.
    specialize (Hfree y Hy Ey).
    destruct ((t <=? position y) && (position y <? position ch)) eqn:R;
      intros Heq; exfalso; bool_to_prop; try destruct R; bool_to_prop; lia.
  - rewrite position_shiftDown by assumption.
    specialize (Hfree x Hx Ex).
    destruct ((t <=? position x) && (position x <? position ch)) eqn:R;
      intros Heq; exfalso; bool_to_prop; try destruct R; bool_to_prop; lia.
  - rewrite !position_shiftDown by assumption.
    pose proof (Hfree x Hx Ex). pose proof (Hfree y Hy Ey).
    destruct ((t <=? position x) && (position x <? position ch)) eqn:Rx,
             ((t <=? position y) && (position y <? position ch)) eqn:Ry;
      intros Heq; bool_to_prop;
      try (destruct Rx; bool_to_prop); try (destruct Ry; bool_to_prop); lia.
Qed.

Lemma reverseLadderMove_NoDup (roster : list Player) (c : string) (s t : Z) :
  NoDup (map pid roster) ->
  NoDup (map position roster) ->
  t <= s ->
  (forall p, In p roster -> pid p <> c -> position p <> t) ->
  NoDup (map position (reverseLadderMove roster c s t)).
Proof.
  intros Hpid Hpos Hts Hother. unfold reverseLadderMove.
  destruct (find (pidIs c) roster) as [ch|] eqn:Hfind; [|assumption].
  rewrite setFirstPosition_map_NoDup by (auto using shiftUp_pid).
  rewrite map_map.
  apply find_some in Hfind. destruct Hfind as [Hch Hc].
  assert (Hone : forall x, In x roster -> pidIs c x = true -> x = ch).
  { intros x Hx Ex. apply (NoDup_map_injective pid roster Hpid); auto.
    apply pidIs_true in Ex, Hc. congruence. }
  assert (Hfree : forall x, In x roster -> pidIs c x = false -> position x <> t).
  { intros x Hx Ex. apply Hother; auto. now apply pidIs_false. }
  apply (NoDup_map_transfer _ position); [|assumption].
  intros x y Hx Hy.
  destruct (pidIs c x) eqn:Ex, (pidIs c y) eqn:Ey; simpl.
  - intros _. now rewrite (Hone x), (Hone y).
  - rewrite position_shiftUp by assumption.
    specialize (Hfree y Hy Ey).
    destruct ((t <? position y) && (position y <=? s)) eqn:R;
      intros Heq; exfalso; bool_to_prop; try destruct R; bool_to_prop; lia.
  - rewrite position_shiftUp by assumption.
    specialize (Hfree x Hx Ex).
    destruct ((t <? position x) && (position x <=? s)) eqn:R;
      intros Heq; exfalso; bool_to_prop; try destruct R; bool_to_prop; lia.
  - rewrite !position_shiftUp by assumption.
    pose proof (Hfree x Hx Ex). pose proof (Hfree y Hy Ey).
    destruct ((t <? position x) && (position x <=? s)) eqn:Rx,
             ((t <? position y) && (position y <=? s)) eqn:Ry;
      intros Heq; bool_to_prop;
      try (destruct Rx; bool_to_prop); try (destruct Ry; bool_to_prop); lia.
Qed.

(** C6, as amended: on a roster in which no two players share a pid or a
    position, the roster produced by [applyLadderMove], for any challenger
    id and target position, has pairwise distinct positions again; and so
    has the roster produced by [reverseLadderMove] with start positions
    [t <= s], provided no player other than the challenger holds position
    [t] in the roster it is given, which is the case for the roster the
    applied move produced: there the reversal gives the distinct positions
    of the original roster back. *)
Theorem ladder_moves_keep_positions_distinct
    (roster : list Player) (c : string) (s t : Z) :
  NoDup (map pid roster) ->
  NoDup (map position roster) ->
  NoDup (map position (mplayers (applyLadderMove roster c t)))
  /\ (t <= s ->
      (forall p, In p roster -> pid p <> c -> position p <> t) ->
      NoDup (map position (reverseLadderMove roster c s t)))
  /\ (forall ch, find (pidIs c) roster = Some ch -> t < position ch ->
      (forall p, In p (mplayers (applyLadderMove roster c t)) ->
                 pid p <> c -> position p <> t)
      /\ NoDup (map position
                  (reverseLadderMove (mplayers (applyLadderMove roster c t))
                                     c (position ch) t))).
Proof.
  intros Hpid Hpos. split; [|split].
  - now apply applyLadderMove_NoDup.
  - intros Hts Hother. now apply reverseLadderMove_NoDup.
  - intros ch Hfind Hlt. split.
    + pose proof (applyLadderMove_NoDup roster c t Hpid Hpos) as Hnd.
      destruct (challenger_lands_on_target roster c t ch Hfind Hlt)
        as [Hf Hp].
      intros p Hin Hne Heq.
      apply find_some in Hf. destruct Hf as [Hin' Hc'].
      assert (p = setPosition t ch)
        by (apply (NoDup_map_injective position _ Hnd); auto).
      subst p. apply Hne. apply pidIs_true in Hc'. exact Hc'.
    + now rewrite (move_then_reverse roster c t ch Hpos Hfind Hlt).
Qed.

Ltac nodup_literal :=
  repeat (constructor; [simpl; intuition discriminate|]); constructor.

(** C10 on the sample roster: nobody has the pid [p9]. *)
Lemma unknown_challenger_shifts_nobody_witness :
  (forall p, In p roster5 -> pid p <> "p9")
  /\ applyLadderMove roster5 "p9" 2 = {| mplayers := roster5; applied := false |}
  /\ reverseLadderMove roster5 "p9" 5 2 = roster5.
Proof.
  assert (H : forall p, In p roster5 -> pid p <> "p9")
    by (simpl; intros p Hp; intuition (subst; discriminate)).
  split; [exact H|].
  exact (unknown_challenger_shifts_nobody roster5 "p9" 5 2 H).
Defined.

(** C5 on the sample roster: [p5] moves from position 5 to position 2. *)
Lemma applyLadderMove_insertion_shift_witness :
  find (pidIs "p5") roster5 = Some (namedPlayer 5)
  /\ map position (mplayers (applyLadderMove roster5 "p5" 2)) = [1; 3; 4; 5; 2]
  /\ find (pidIs "p5") (mplayers (applyLadderMove roster5 "p5" 2))
     = Some (setPosition 2 (namedPlayer 5)).
Proof.
  split; [reflexivity|]. split; [reflexivity|].
  destruct (applyLadderMove_insertion_shift roster5 "p5" 2 (namedPlayer 5)
              eq_refl) as [_ H].
  exact (proj1 (proj2 (proj2 (H eq_refl)))).
Defined.

(** C1 on the sample roster: the move of [p5] to position 2, reversed. *)
Lemma apply_then_reverse_restores_positions_witness :
  NoDup (map position roster5)
  /\ find (pidIs "p5") roster5 = Some (namedPlayer 5)
  /\ 2 < position (namedPlayer 5)
  /\ reverseLadderMove (mplayers (applyLadderMove roster5 "p5" 2)) "p5" 5 2
     = roster5.
Proof.
  assert (Hnd : NoDup (map position roster5)) by (vm_compute; nodup_literal).
  split; [exact Hnd|]. split; [reflexivity|]. split; [reflexivity|].
  exact (proj1 (apply_then_reverse_restores_positions roster5 "p5" 2
                  (namedPlayer 5) Hnd eq_refl eq_refl)).
Defined.

(** C6, counterexample to the claim as stated: [p5] takes position 2 from
    position 5, then takes position 1; the roster has distinct positions.
    Reversing the first move with its frozen start positions [5] and [2]
    leaves [p1] and [p2] both at position 2. *)
Lemma reverse_of_earlier_move_shares_a_position :
  NoDup (map position roster5)
  /\ applied (applyLadderMove roster5 "p5" 2) = true
  /\ applied (applyLadderMove afterFirstUpset "p5" 1) = true
  /\ NoDup (map position afterSecondUpset)
  /\ map position (reverseLadderMove afterSecondUpset "p5" 5 2) = [2; 2; 3; 4; 5]
  /\ ~ NoDup (map position (reverseLadderMove afterSecondUpset "p5" 5 2)).
Proof.
  split; [vm_compute; nodup_literal|].
  split; [reflexivity|]. split; [reflexivity|].
  split; [vm_compute; nodup_literal|].
  split; [reflexivity|].
  intros H. vm_compute in H. inversion H as [|? ? Hnotin _]; subst.
  apply Hnotin. now left.
Qed.

(** C6 as amended, on the sample roster: the move of [p5] to position 2
    and its reversal on the roster the move produced. *)
Lemma ladder_moves_keep_positions_distinct_witness :
  NoDup (map pid roster5)
  /\ NoDup (map position roster5)
  /\ NoDup (map position (mplayers (applyLadderMove roster5 "p5" 2)))
  /\ NoDup (map position (reverseLadderMove afterFirstUpset "p5" 5 2)).
Proof.
  assert (Hpid : NoDup (map pid roster5)) by (vm_compute; nodup_literal).
  assert (Hpos : NoDup (map position roster5)) by (vm_compute; nodup_literal).
  split; [exact Hpid|]. split; [exact Hpos|].
  destruct (ladder_moves_keep_positions_distinct roster5 "p5" 5 2 Hpid Hpos)
    as (Happly & _ & Hback).
  split; [exact Happly|].
  exact (proj2 (Hback (namedPlayer 5) eq_refl eq_refl)).
Defined.

(** ** Statistics *)

Lemma orZero_id (x : Z) : orZero x = x.
Proof. unfold orZero. destruct (x =? 0) eqn:E; [apply Z.eqb_eq in E|]; congruence. Qed.

Lemma clampMin0_max (x : Z) : clampMin0 x = Z.max 0 x.
Proof. reflexivity. Qed.

Lemma statsOnly_position f p : statsOnly f -> position (f p) = position p.
Proof.
  intros [_ H]. rewrite <- (setPosition_eta p) at 1. now rewrite H.
Qed.

Lemma statsOnly_pidIs f c p : statsOnly f -> pidIs c (f p) = pidIs c p.
Proof. intros [H _]. unfold pidIs. now rewrite H. Qed.

Lemma addStats_statsOnly c o w t mk : statsOnly (addStats c o w t mk).
Proof.
  split; intros; unfold addStats; simpl;
    destruct (negb (pid p =? c)%string && negb (pid p =? o)%string);
    try reflexivity; destruct mk; reflexivity.
Qed.

Lemma reverseStats_statsOnly c o w t mk : statsOnly (reverseStats c o w t mk).
Proof.
  split; intros; unfold reverseStats; simpl;
    destruct (negb (pid p =? c)%string && negb (pid p =? o)%string);
    try reflexivity; destruct mk; reflexivity.
Qed.

Lemma deltaStats_statsOnly c o w t mk dir : statsOnly (deltaStats c o w t mk dir).
Proof.
  split; intros; unfold deltaStats; simpl;
    destruct (negb (pid p =? c)%string && negb (pid p =? o)%string);
    try reflexivity; destruct mk; reflexivity.
Qed.

(** The reversal of the edit transaction is the reversal of the delete
    transaction. *)
Lemma deltaStats_minus c o w t mk p :
  deltaStats c o w t mk (-1) p = reverseStats c o w t mk p.
Proof.
  unfold deltaStats, reverseStats.
  destruct (negb (pid p =? c)%string && negb (pid p =? o)%string);
    [reflexivity|].
  destruct mk as [k|]; [destruct k|]; unfold setMonthCount; simpl;
    f_equal; unfold clampMin0, asNumber; lia.
Qed.


Lemma reverseStats_nonNegative c o w t mk p :
  countersNonNegative p -> countersNonNegative (reverseStats c o w t mk p).
Proof.
  intros (H1 & H2 & H3 & H4 & H5 & H6 & H7 & H8 & H9 & H10 & H11).
  unfold reverseStats.
  destruct (negb (pid p =? c)%string && negb (pid p =? o)%string);
    [repeat split; assumption|].
  destruct mk as [k|]; [destruct k|]; unfold countersNonNegative, setMonthCount;
    simpl; unfold clampMin0, asNumber; repeat split; lia.
Qed.


Lemma computeLoop_nonNegative (sets : list SetScore) (t : Totals) :
  Forall (fun s => 0 <= p1 s /\ 0 <= p2 s) sets ->
  0 <= p1Sets t -> 0 <= p2Sets t -> 0 <= p1Games t -> 0 <= p2Games t ->
  let r := computeLoop sets t in
  0 <= p1Sets r /\ 0 <= p2Sets r /\ 0 <= p1Games r /\ 0 <= p2Games r.
Proof.
  revert t. induction sets as [|s rest IH]; intros t HF T1 T2 T3 T4; simpl.
  - auto.
  - inversion HF as [|? ? [Hs1 Hs2] HF']; subst.
    destruct (p1 s >? p2 s); [|destruct (p2 s >? p1 s)];
      apply IH; simpl; auto; lia.
Qed.

Lemma computeFromSets_nonNegative (sets : list SetScore) :
  ok (validateSets sets) = true ->
  let r := computeFromSets sets in
  0 <= p1Sets r /\ 0 <= p2Sets r /\ 0 <= p1Games r /\ 0 <= p2Games r.
Proof.
  intros Hok. apply validateSets_ok_legal in Hok.
  apply computeLoop_nonNegative; simpl; try lia.
  eapply Forall_impl; [|exact Hok]. intros s (Ha & Hb & _). auto.
Qed.

(** ** Statistics and the ladder commute *)

Section StatsAndLadder.

Variable f : Player -> Player.
Hypothesis Hf : statsOnly f.
Variable c : string.

Lemma find_map_statsOnly l :
  find (pidIs c) (map f l) = option_map f (find (pidIs c) l).
Proof.
  induction l as [|p r IH]; simpl; [reflexivity|].
  rewrite (statsOnly_pidIs f c p Hf). now destruct (pidIs c p).
Qed.

Lemma shiftUp_statsOnly s t p : shiftUp c s t (f p) = f (shiftUp c s t p).
Proof.
  unfold shiftUp. rewrite (statsOnly_pidIs f c p Hf), (statsOnly_position f p Hf).
  destruct (pidIs c p); [reflexivity|].
  destruct (_ && _); [|reflexivity]. symmetry. apply Hf.
Qed.

Lemma shiftDown_statsOnly t s p : shiftDown c t s (f p) = f (shiftDown c t s p).
Proof.
  unfold shiftDown. rewrite (statsOnly_pidIs f c p Hf), (statsOnly_position f p Hf).
  destruct (pidIs c p); [reflexivity|].
  destruct (_ && _); [|reflexivity]. symmetry. apply Hf.
Qed.

Lemma setFirstPosition_statsOnly v l :
  setFirstPosition c v (map f l) = map f (setFirstPosition c v l).
Proof.
  induction l as [|p r IH]; simpl; [reflexivity|].
  rewrite (statsOnly_pidIs f c p Hf). destruct (pidIs c p); simpl.
  - f_equal. symmetry. apply Hf.
  - now rewrite IH.
Qed.

Lemma reverseLadderMove_statsOnly l s t :
  reverseLadderMove (map f l) c s t = map f (reverseLadderMove l c s t).
Proof.
  unfold reverseLadderMove. rewrite find_map_statsOnly.
  destruct (find (pidIs c) l); simpl; [|reflexivity].
  rewrite map_map.
  rewrite (map_ext _ (fun p => f (shiftUp c s t p)))
    by (intro; apply shiftUp_statsOnly).
  rewrite <- (map_map (shiftUp c s t) f). apply setFirstPosition_statsOnly.
Qed.

Lemma applyLadderMove_statsOnly l t :
  applyLadderMove (map f l) c t
  = {| mplayers := map f (mplayers (applyLadderMove l c t));
       applied := applied (applyLadderMove l c t) |}.
Proof.
  unfold applyLadderMove. rewrite find_map_statsOnly.
  destruct (find (pidIs c) l) as [ch|]; simpl; [|reflexivity].
  rewrite (statsOnly_position f ch Hf).
  destruct (position ch <=? t); simpl; [reflexivity|].
  f_equal. rewrite map_map.
  rewrite (map_ext _ (fun p => f (shiftDown c t (position ch) p)))
    by (intro; apply shiftDown_statsOnly).
  rewrite <- (map_map (shiftDown c t (position ch)) f).
  apply setFirstPosition_statsOnly.
Qed.

End StatsAndLadder.

Lemma map_position_statsOnly f l :
  statsOnly f -> map position (map f l) = map position l.
Proof.
  intros Hf. rewrite map_map. apply map_ext. intro. now apply statsOnly_position.
Qed.


Lemma erasePosition_setFirstPosition c v l :
  map erasePosition (setFirstPosition c v l) = map erasePosition l.
Proof.
  induction l as [|p r IH]; simpl; [reflexivity|].
  destruct (pidIs c p); simpl; [reflexivity|]. now rewrite IH.
Qed.

(** The reversal of a ladder move changes positions only. *)
Lemma erasePosition_reverseLadderMove l c s t :
  map erasePosition (reverseLadderMove l c s t) = map erasePosition l.
Proof.
  unfold reverseLadderMove. destruct (find (pidIs c) l); [|reflexivity].
  rewrite erasePosition_setFirstPosition, map_map. apply map_ext.
  intros q. unfold shiftUp. destruct (pidIs c q); [reflexivity|].
  now destruct (_ && _).
Qed.

(** ** The delete transaction *)

(** What the statistics reversal does to a single player. *)
Lemma reverseStats_fields c o w t mk p :
  let q := reverseStats c o w t mk p in
  (pid p <> c -> pid p <> o -> q = p)
  /\ (pid p = c \/ pid p = o ->
      let mine := (pid p =? c)%string in
      let won := ((w =? "p1")%string && mine) || ((w =? "p2")%string && negb mine) in
      pid q = pid p /\ position q = position p /\ name q = name p
      /\ matchesPlayed q = Z.max 0 (matchesPlayed p - 1)
      /\ matchesWon q = Z.max 0 (matchesWon p - (if won then 1 else 0))
      /\ setsWon q = Z.max 0 (setsWon p - (if mine then p1Sets t else p2Sets t))
      /\ setsLost q = Z.max 0 (setsLost p - (if mine then p2Sets t else p1Sets t))
      /\ gamesWon q = Z.max 0 (gamesWon p - (if mine then p1Games t else p2Games t))
      /\ gamesLost q = Z.max 0 (gamesLost p - (if mine then p2Games t else p1Games t))
      /\ forall k, (mk = Some k -> monthCount k q = Z.max 0 (monthCount k p - 1))
                   /\ (mk <> Some k -> monthCount k q = monthCount k p)).
Proof.
  unfold reverseStats. split.
  - intros Hc Ho. apply String.eqb_neq in Hc, Ho. now rewrite Hc, Ho.
  - intros Hpart.
    assert (Hcond : negb (pid p =? c)%string && negb (pid p =? o)%string = false).
    { destruct Hpart as [<-|<-]; rewrite String.eqb_refl; simpl;
        [reflexivity|apply andb_false_r]. }
    rewrite Hcond. clear Hcond Hpart. cbv zeta.
    destruct mk as [k0|]; unfold setMonthCount, clampMin0, asNumber; simpl;
      rewrite ?orZero_id; repeat split; try reflexivity.
    + intros [= ->]. destruct k; reflexivity.
    + intros Hne. destruct k0, k; try reflexivity; congruence.
    + discriminate.
Qed.

Section DeleteProperties.

Variable getMonth : string -> option Z.

(** C7: for a match id present in the log, the delete transaction removes
    every record with that id and keeps the others; it applies the clamped
    statistics reversal to the roster exactly when the stored score parses
    and validates again, and leaves every counter as it is otherwise; and
    it reverses the ladder move with the frozen start positions of the
    record exactly when [ladderMoveApplied] is set, whether or not the
    stored score is valid.  The last conjunct spells the clamped reversal
    out: it touches the two participants only, and takes the deltas of the
    match off their counters with a floor of 0. *)
Theorem delete_removes_and_reverses
    (state : State) (target : string) (m : Match) :
  find (fun x => (id x =? target)%string) (matches state) = Some m ->
  let next := deleteTransaction getMonth target state in
  let totals := computeFromSets (sets (parseScore (score m))) in
  let back := reverseStats (challengerPid m) (opponentPid m) (winnerId m) totals
                           (monthKeyFromDateISO getMonth (date m)) in
  let afterStats :=
    if storedScoreValid m then map back (players state) else players state in
  (forall x, In x (matches next) <-> In x (matches state) /\ id x <> target)
  /\ ~ In m (matches next)
  /\ playerCount next = playerCount state
  /\ map erasePosition (players next) = map erasePosition afterStats
  /\ map position (players next)
     = map position
         (if ladderMoveApplied m
          then reverseLadderMove (players state) (challengerPid m)
                                 (challengerStartPos m) (opponentStartPos m)
          else players state)
  /\ players next
     = (if ladderMoveApplied m
        then reverseLadderMove afterStats (challengerPid m)
                               (challengerStartPos m) (opponentStartPos m)
        else afterStats)
  /\ forall p,
       (pid p <> challengerPid m -> pid p <> opponentPid m -> back p = p)
       /\ (pid p = challengerPid m \/ pid p = opponentPid m ->
           let mine := (pid p =? challengerPid m)%string in
           let won := ((winnerId m =? "p1")%string && mine)
                      || ((winnerId m =? "p2")%string && negb mine) in
           matchesPlayed (back p) = Z.max 0 (matchesPlayed p - 1)
           /\ matchesWon (back p)
              = Z.max 0 (matchesWon p - (if won then 1 else 0))
           /\ setsWon (back p)
              = Z.max 0 (setsWon p - (if mine then p1Sets totals else p2Sets totals))
           /\ setsLost (back p)
              = Z.max 0 (setsLost p - (if mine then p2Sets totals else p1Sets totals))
           /\ gamesWon (back p)
              = Z.max 0 (gamesWon p - (if mine then p1Games totals else p2Games totals))
           /\ gamesLost (back p)
              = Z.max 0 (gamesLost p - (if mine then p2Games totals else p1Games totals))
           /\ forall k,
                (monthKeyFromDateISO getMonth (date m) = Some k ->
                 monthCount k (back p) = Z.max 0 (monthCount k p - 1))
                /\ (monthKeyFromDateISO getMonth (date m) <> Some k ->
                    monthCount k (back p) = monthCount k p)).
Proof.
  intros Hfind next totals back afterStats.
  assert (Hplayers :
            players next
            = (if ladderMoveApplied m
               then reverseLadderMove afterStats (challengerPid m)
                      (challengerStartPos m) (opponentStartPos m)
               else afterStats)).
  { subst next afterStats. unfold deleteTransaction, storedScoreValid.
    rewrite Hfind. simpl.
    destruct (valid (parseScore (score m))); simpl; [|reflexivity].
    destruct (ok (validateSets (sets (parseScore (score m))))); reflexivity. }
  assert (Hmatches :
            matches next
            = filter (fun x => negb (id x =? target)%string) (matches state)).
  { subst next. unfold deleteTransaction. now rewrite Hfind. }
  assert (Hlog : forall x, In x (matches next)
                           <-> In x (matches state) /\ id x <> target).
  { intros x. rewrite Hmatches, filter_In, negb_true_iff, String.eqb_neq.
    tauto. }
  assert (Hback : statsOnly back) by apply reverseStats_statsOnly.
  assert (Hpos : map position afterStats = map position (players state)).
  { subst afterStats. destruct (storedScoreValid m); [|reflexivity].
    now apply map_position_statsOnly. }
  split; [exact Hlog|]. split.
  { intros Hin. apply Hlog in Hin. destruct Hin as [_ Hne].
    apply find_some in Hfind. destruct Hfind as [_ Heq].
    apply String.eqb_eq in Heq. contradiction. }
  split.
  { subst next. unfold deleteTransaction. now rewrite Hfind. }
  split.
  { rewrite Hplayers. destruct (ladderMoveApplied m); [|reflexivity].
    apply erasePosition_reverseLadderMove. }
  split.
  { rewrite Hplayers. destruct (ladderMoveApplied m); [|exact Hpos].
    subst afterStats. destruct (storedScoreValid m); [|reflexivity].
    rewrite reverseLadderMove_statsOnly by assumption.
    now apply map_position_statsOnly. }
  split; [exact Hplayers|].
  intros p.
  destruct (reverseStats_fields (challengerPid m) (opponentPid m) (winnerId m)
              totals (monthKeyFromDateISO getMonth (date m)) p)
    as [Hother Hpart].
  split; [exact Hother|]. intros Hp. specialize (Hpart Hp).
  cbv zeta in Hpart |- *. fold back in Hpart. tauto.
Qed.

End DeleteProperties.

(** ** The add transaction *)

Section AddProperties.

Variable getMonth : string -> option Z.

(** What an accepted add transaction went through, and the snapshot it
    built. *)
Lemma actuallyAddMatch_accepted (f : AddForm.t) (newId : string) (state next : State) :
  actuallyAddMatch getMonth f newId state = Next next ->
  exists p1 p2,
    AddForm.locked f = false
    /\ find (fun p => position p =?
                      clamp (match js_Number (AddForm.matchPos f) with
                             | Some n => if n =? 0 then 1 else n
                             | None => 1
                             end) 1 (playerCount state))
            (players state) = Some p2
    /\ isEmpty (trim (name p2)) = false
    /\ find (pidIs (AddForm.challengerPid f)) (players state) = Some p1
    /\ isEmpty (trim (name p1)) = false
    /\ (pid p1 =? pid p2)%string = false
    /\ valid (parseScore (AddForm.score f)) = true
    /\ ok (validateSets (sets (parseScore (AddForm.score f)))) = true
    /\ next
       = let totals := computeFromSets (sets (parseScore (AddForm.score f))) in
         let monthKey := monthKeyFromDateISO getMonth (AddForm.matchDate f) in
         let moved :=
           if (AddForm.winner f =? "p1")%string && (position p1 >? position p2)
           then applyLadderMove (players state) (pid p1) (position p2)
           else {| mplayers := players state; applied := false |} in
         {| playerCount := playerCount state;
            matches :=
              {| id := newId;
                 date := AddForm.matchDate f;
                 positionPlayedFor := position p2;
                 challengerPid := pid p1;
                 opponentPid := pid p2;
                 winnerId := AddForm.winner f;
                 score := trim (AddForm.score f);
                 surface := AddForm.surface f;
                 challengerStartPos := position p1;
                 opponentStartPos := position p2;
                 ladderMoveApplied := applied moved |} :: matches state;
            players :=
              map (fun p => if negb (applied moved) then p
                            else takePosition (mplayers moved) p)
                  (map (addStats (pid p1) (pid p2) (AddForm.winner f)
                                 totals monthKey)
                       (players state)) |}.
Proof.
  unfold actuallyAddMatch.
  destruct (AddForm.locked f); [discriminate|].
  destruct (find _ (players state)) as [p2|] eqn:H2; [|discriminate].
  destruct (isEmpty (trim (name p2))) eqn:N2; [discriminate|].
  destruct (isEmpty (AddForm.challengerPid f)); [discriminate|].
  destruct (find (pidIs (AddForm.challengerPid f)) (players state))
    as [p1|] eqn:H1; [|discriminate].
  destruct (isEmpty (trim (name p1))) eqn:N1; [discriminate|].
  destruct (pid p1 =? pid p2)%string eqn:Hne; [discriminate|].
  destruct (valid (parseScore (AddForm.score f))) eqn:Hv; [|discriminate].
  destruct (ok (validateSets (sets (parseScore (AddForm.score f))))) eqn:Hok;
    [|discriminate].
  simpl. intros [= <-]. exists p1, p2. repeat split; auto.
Qed.

(** Under distinct pids, a lookup by the pid of a player of the roster in
    an image of the roster that keeps the pids finds the image of that
    player. *)
Lemma find_pid_in_image (g : Player -> Player) (l : list Player) (p : Player) :
  NoDup (map pid l) ->
  (forall q, pid (g q) = pid q) ->
  In p l ->
  find (pidIs (pid p)) (map g l) = Some (g p).
Proof.
  intros Hnd Hg. induction l as [|q r IH]; simpl; [contradiction|].
  inversion Hnd as [|? ? Hnotin Hnd']; subst.
  intros [->|Hin].
  - unfold pidIs at 1. now rewrite Hg, String.eqb_refl.
  - unfold pidIs at 1. rewrite Hg.
    destruct (pid q =? pid p)%string eqn:E; [|now apply IH].
    exfalso. apply String.eqb_eq in E. apply Hnotin. rewrite E.
    now apply in_map.
Qed.

(** Taking the positions of an image [map g l] of the roster that keeps
    every pid, after a statistics update [f]. *)
Lemma takePosition_image (f g : Player -> Player) (l : list Player) :
  NoDup (map pid l) ->
  statsOnly f ->
  (forall q, pid (g q) = pid q) ->
  map (takePosition (map g l)) (map f l)
  = map (fun p => setPosition (position (g p)) (f p)) l.
Proof.
  intros Hnd Hf Hg. rewrite map_map. apply map_ext_in. intros p Hp.
  unfold takePosition. rewrite (proj1 Hf).
  now rewrite (find_pid_in_image g l p Hnd Hg Hp).
Qed.

Lemma moveOne_pid c t s p : pid (moveOne c t s p) = pid p.
Proof.
  unfold moveOne. destruct (pidIs c p); simpl; apply shiftDown_pid.
Qed.



Lemma applyLadderMove_not_applied (roster : list Player) (c : string) (t : Z) :
  applied (applyLadderMove roster c t) = false ->
  mplayers (applyLadderMove roster c t) = roster.
Proof.
  unfold applyLadderMove. destruct (find (pidIs c) roster); [|reflexivity].
  destruct (_ <=? t); [reflexivity|discriminate].
Qed.

End AddProperties.

Section AddThenDelete.

Variable getMonth : string -> option Z.

Lemma find_pidIs_self (c : string) (l : list Player) (p : Player) :
  find (pidIs c) l = Some p -> find (pidIs (pid p)) l = Some p.
Proof.
  intros H. pose proof (find_some _ _ H) as [_ Hc].
  apply pidIs_true in Hc. now rewrite Hc.
Qed.



End AddThenDelete.

(** ** The edit transaction *)

Lemma countersNonNegative_erasePosition (p : Player) :
  countersNonNegative (erasePosition p) <-> countersNonNegative p.
Proof. reflexivity. Qed.

Lemma Forall_countersNonNegative_erase (l l' : list Player) :
  map erasePosition l = map erasePosition l' ->
  Forall countersNonNegative l' -> Forall countersNonNegative l.
Proof.
  intros Heq H.
  apply (Forall_impl _ (fun p => proj1 (countersNonNegative_erasePosition p))).
  apply Forall_map. rewrite Heq. apply Forall_map.
  apply (Forall_impl _ (fun p => proj2 (countersNonNegative_erasePosition p))).
  exact H.
Qed.







Section EditProperties.

Variable getMonth : string -> option Z.

(** The roster after the reversal of a stored match: the players of the
    delete transaction, and the players the edit transaction works on. *)
Lemma deleted_players (state : State) (target : string) (m : Match) :
  find (fun x => (id x =? target)%string) (matches state) = Some m ->
  storedScoreValid m = true ->
  let back := reverseStats (challengerPid m) (opponentPid m) (winnerId m)
                (computeFromSets (sets (parseScore (score m))))
                (monthKeyFromDateISO getMonth (date m)) in
  let ladder :=
    if ladderMoveApplied m
    then reverseLadderMove (players state) (challengerPid m)
           (challengerStartPos m) (opponentStartPos m)
    else players state in
  deleteTransaction getMonth target state
  = {| playerCount := playerCount state;
       matches := filter (fun x => negb (id x =? target)%string) (matches state);
       players := map back ladder |}
  /\ applyMatchDelta getMonth m (-1) ladder = Some (map back ladder).
Proof.
  intros Hfind Hstored back ladder.
  unfold storedScoreValid in Hstored. apply andb_true_iff in Hstored.
  destruct Hstored as [Hv Hok]. split.
  - unfold deleteTransaction. rewrite Hfind. simpl.
    rewrite Hv, Hok. f_equal. subst ladder back.
    destruct (ladderMoveApplied m); [|reflexivity].
    apply reverseLadderMove_statsOnly, reverseStats_statsOnly.
  - unfold applyMatchDelta. rewrite Hv, Hok. simpl. f_equal.
    apply map_ext. intro. apply deltaStats_minus.
Qed.


End EditProperties.

(** ** The transactions on the sample snapshots *)


Ltac counters_literal :=
  repeat (constructor; [unfold countersNonNegative; simpl; lia|]); constructor.

(** C7 on the snapshot after the upset: the delete of [m1] removes the
    record and puts every player back on its position. *)
Lemma delete_removes_and_reverses_witness :
  find (fun x => (id x =? "m1")%string) (matches stateUpset) = Some upsetRecord
  /\ ~ In upsetRecord (matches (deleteTransaction isoMonth "m1" stateUpset))
  /\ map position (players (deleteTransaction isoMonth "m1" stateUpset))
     = [1; 2; 3; 4; 5].
Proof.
  assert (Hfind : find (fun x => (id x =? "m1")%string) (matches stateUpset)
                  = Some upsetRecord) by (vm_compute; reflexivity).
  split; [exact Hfind|].
  destruct (delete_removes_and_reverses isoMonth stateUpset "m1"
              upsetRecord Hfind)
    as (_ & Hgone & _ & _ & Hpos & _).
  split; [exact Hgone|]. rewrite Hpos. vm_compute. reflexivity.
Defined.



Lemma deleteMatchConfirmed_runs (getMonth : string -> option Z)
    (target pin : string) (state : State) :
  isEmpty target = false -> isEmpty pin = false ->
  deleteMatchConfirmed getMonth target pin state
  = deleteTransaction getMonth target state.
Proof. intros Ht Hp. unfold deleteMatchConfirmed. now rewrite Ht, Hp. Qed.


(* ================================================================= *)
(** * Further properties of the ladder position engine *)

Lemma erasePosition_applyLadderMove (roster : list Player) (c : string) (t : Z) :
  map erasePosition (mplayers (applyLadderMove roster c t))
  = map erasePosition roster.
Proof.
  unfold applyLadderMove. destruct (find (pidIs c) roster) as [ch|]; [|reflexivity].
  destruct (position ch <=? t); [reflexivity|]. simpl.
  rewrite erasePosition_setFirstPosition, map_map. apply map_ext.
  intros q. unfold shiftDown. destruct (pidIs c q); [reflexivity|].
  now destruct (_ && _).
Qed.

(** X1: a move and its reversal change positions only: the pid, the name and
    every counter of every player stay, in the same order of the array. *)
Theorem ladder_moves_change_positions_only
    (roster : list Player) (c : string) (s t : Z) :
  map erasePosition (mplayers (applyLadderMove roster c t))
  = map erasePosition roster
  /\ map erasePosition (reverseLadderMove roster c s t)
     = map erasePosition roster.
Proof.
  split; [apply erasePosition_applyLadderMove|apply erasePosition_reverseLadderMove].
Qed.

Lemma applyLadderMove_other (roster : list Player) (c : string) (t : Z)
    (ch : Player) (i : nat) (p : Player) :
  find (pidIs c) roster = Some ch ->
  t < position ch ->
  nth_error roster i = Some p -> pid p <> c ->
  nth_error (mplayers (applyLadderMove roster c t)) i
  = Some (shiftDown c t (position ch) p).
Proof.
  intros Hfind Hlt Hi Hp. unfold applyLadderMove. rewrite Hfind.
  replace (position ch <=? t) with false by (symmetry; apply Z.leb_gt; lia).
  simpl. apply nth_error_setFirstPosition_other.
  - now rewrite nth_error_map, Hi.
  - unfold pidIs. rewrite shiftDown_pid. now apply String.eqb_neq.
Qed.

Lemma applyLadderMove_unchanged (roster : list Player) (c : string) (t : Z) :
  applied (applyLadderMove roster c t) = false ->
  applyLadderMove roster c t = {| mplayers := roster; applied := false |}.
Proof.
  unfold applyLadderMove. destruct (find (pidIs c) roster); [|reflexivity].
  destruct (_ <=? t); [reflexivity|discriminate].
Qed.

(** X2: the other players keep their relative order through a move: on a
    roster with distinct positions, of two players other than the
    challenger, the one that stood above the other still stands above
    it. *)
Theorem applyLadderMove_keeps_relative_order
    (roster : list Player) (c : string) (t : Z) (i j : nat) (p q p' q' : Player) :
  NoDup (map position roster) ->
  nth_error roster i = Some p ->
  nth_error roster j = Some q ->
  pid p <> c -> pid q <> c ->
  nth_error (mplayers (applyLadderMove roster c t)) i = Some p' ->
  nth_error (mplayers (applyLadderMove roster c t)) j = Some q' ->
  position p < position q ->
  position p' < position q'.
Proof.
  intros Hnd Hi Hj Hp Hq Hi' Hj' Hlt.
  destruct (applied (applyLadderMove roster c t)) eqn:Happ.
  - unfold applyLadderMove in Happ.
    destruct (find (pidIs c) roster) as [ch|] eqn:Hfind; [|discriminate].
    destruct (position ch <=? t) eqn:Hle; [discriminate|].
    apply Z.leb_gt in Hle.
    rewrite (applyLadderMove_other roster c t ch i p Hfind Hle Hi Hp) in Hi'.
    rewrite (applyLadderMove_other roster c t ch j q Hfind Hle Hj Hq) in Hj'.
    injection Hi' as <-. injection Hj' as <-.
    assert (Hqs : position q <> position ch).
    { intros Heq. apply Hq. apply find_some in Hfind. destruct Hfind as [Hin Hc].
      apply pidIs_true in Hc. rewrite <- Hc. f_equal.
      apply (NoDup_map_injective position roster Hnd); auto.
      eapply nth_error_In; eauto. }
    rewrite !position_shiftDown by (now apply pidIs_false).
    destruct ((t <=? position p) && (position p <? position ch)) eqn:Rp,
             ((t <=? position q) && (position q <? position ch)) eqn:Rq;
      bool_to_prop; try (destruct Rp; bool_to_prop);
      try (destruct Rq; bool_to_prop); lia.
  - rewrite (applyLadderMove_unchanged roster c t Happ) in Hi', Hj'.
    simpl in Hi', Hj'. congruence.
Qed.

(** X3: a move that was applied is not applied a second time: the challenger
    holds the target already, and the roster stays as the first move left
    it. *)
Theorem applyLadderMove_twice (roster : list Player) (c : string) (t : Z) :
  let once := applyLadderMove roster c t in
  applied once = true ->
  applyLadderMove (mplayers once) c t
  = {| mplayers := mplayers once; applied := false |}.
Proof.
  intros once Happ. subst once. unfold applyLadderMove in Happ |- *.
  destruct (find (pidIs c) roster) as [ch|] eqn:Hfind; [|discriminate].
  destruct (position ch <=? t) eqn:Hle; [discriminate|]. simpl.
  rewrite find_setFirstPosition_map by (intro; apply shiftDown_pid).
  rewrite Hfind. simpl. now rewrite Z.leb_refl.
Qed.

(** X4: the reversal followed by the move, on a roster with distinct positions
    in which the challenger holds the target [t] below the start position
    [s]: the move puts everybody back. *)
Theorem reverse_then_apply_restores_roster
    (roster : list Player) (c : string) (s t : Z) (ch : Player) :
  NoDup (map position roster) ->
  find (pidIs c) roster = Some ch ->
  position ch = t ->
  t < s ->
  applyLadderMove (reverseLadderMove roster c s t) c t
  = {| mplayers := roster; applied := true |}.
Proof.
  intros Hnd Hfind Hpos Hlt. unfold reverseLadderMove. rewrite Hfind.
  unfold applyLadderMove.
  rewrite find_setFirstPosition_map by (intro; apply shiftUp_pid).
  rewrite Hfind. simpl.
  replace (s <=? t) with false by (symmetry; apply Z.leb_gt; lia).
  f_equal.
  rewrite map_setFirstPosition
    by (intros; first [now apply shiftDown_challenger | apply shiftDown_pid]).
  rewrite setFirstPosition_twice, map_map.
  rewrite (map_ext_in _ (fun p => p)).
  - rewrite map_id. rewrite <- Hpos. now apply setFirstPosition_same.
  - intros p Hp. unfold shiftUp. destruct (pidIs c p) eqn:E.
    + now apply shiftDown_challenger.
    + assert (Hne : position p <> t).
      { intros Heq. apply find_some in Hfind. destruct Hfind as [Hin Hc].
        assert (p = ch)
          by (apply (NoDup_map_injective position roster Hnd); auto; congruence).
        subst p. congruence. }
      destruct ((position p >? t) && (position p <=? s)) eqn:R.
      * unfold shiftDown. rewrite pidIs_setPosition, E. simpl.
        destruct ((position p - 1 >=? t) && (position p - 1 <? s)) eqn:R'.
        -- destruct p; unfold setPosition; simpl. f_equal. lia.
        -- exfalso. bool_to_prop. destruct R'; bool_to_prop; lia.
      * unfold shiftDown. rewrite E.
        destruct ((position p >=? t) && (position p <? s)) eqn:R'; [|reflexivity].
        exfalso. bool_to_prop. destruct R; bool_to_prop; lia.
Qed.

Lemma In_positionsUpTo (n z : Z) : In z (positionsUpTo n) <-> 1 <= z <= n.
Proof.
  unfold positionsUpTo. rewrite in_map_iff. split.
  - intros (k & <- & Hk). apply in_seq in Hk. lia.
  - intros H. exists (Z.to_nat z). split; [lia|]. apply in_seq. lia.
Qed.


Lemma NoDup_positionsUpTo (n : Z) : NoDup (positionsUpTo n).
Proof.
  unfold positionsUpTo. apply (NoDup_map_transfer Z.of_nat (fun k => k)).
  - intros a b _ _ H. lia.
  - rewrite map_id. apply seq_NoDup.
Qed.

Lemma position_moveOne (c : string) (t s : Z) (p : Player) :
  position (moveOne c t s p)
  = if pidIs c p then t
    else if (t <=? position p) && (position p <? s) then position p + 1
         else position p.
Proof.
  unfold moveOne. destruct (pidIs c p) eqn:E; [reflexivity|].
  now apply position_shiftDown.
Qed.

Lemma moved_positions_permutation
    (roster : list Player) (c : string) (t n : Z) :
  NoDup (map pid roster) ->
  Permutation (map position roster) (positionsUpTo n) ->
  1 <= t <= n ->
  Permutation (map position (mplayers (applyLadderMove roster c t)))
              (positionsUpTo n).
Proof.
  intros Hpid Hperm [Ht _].
  assert (Hpos : NoDup (map position roster)).
  { eapply Permutation_NoDup; [symmetry; exact Hperm|apply NoDup_positionsUpTo]. }
  assert (Hin : forall p, In p roster -> 1 <= position p <= n).
  { intros p Hp. apply In_positionsUpTo.
    eapply Permutation_in; [exact Hperm|]. now apply in_map. }
  apply NoDup_Permutation_bis.
  - now apply applyLadderMove_NoDup.
  - rewrite length_map.
    rewrite <- (Permutation_length Hperm), length_map.
    assert (Hlen : length (map erasePosition (mplayers (applyLadderMove roster c t)))
                   = length (map erasePosition roster))
      by (now rewrite erasePosition_applyLadderMove).
    rewrite !length_map in Hlen. lia.
  - intros z Hz. apply In_positionsUpTo.
    destruct (applied (applyLadderMove roster c t)) eqn:Happ.
    + unfold applyLadderMove in Happ, Hz.
      destruct (find (pidIs c) roster) as [ch|] eqn:Hfind; [|discriminate].
      destruct (position ch <=? t) eqn:Hle; [discriminate|].
      apply Z.leb_gt in Hle. simpl in Hz.
      rewrite setFirstPosition_map_NoDup in Hz by (auto using shiftDown_pid).
      fold (moveOne c t (position ch)) in Hz.
      change (fun p => if pidIs c p
                       then setPosition t (shiftDown c t (position ch) p)
                       else shiftDown c t (position ch) p)
        with (moveOne c t (position ch)) in Hz.
      rewrite map_map in Hz. apply in_map_iff in Hz.
      destruct Hz as (p & <- & Hp). rewrite position_moveOne.
      pose proof (Hin p Hp). apply find_some in Hfind.
      pose proof (Hin ch (proj1 Hfind)).
      destruct (pidIs c p); [lia|].
      destruct ((t <=? position p) && (position p <? position ch)) eqn:R;
        [bool_to_prop; lia|lia].
    + rewrite (applyLadderMove_unchanged roster c t Happ) in Hz. simpl in Hz.
      apply in_map_iff in Hz. destruct Hz as (p & <- & Hp). now apply Hin.
Qed.

(** X5: the ladder stays a ladder: on a roster with distinct pids whose
    positions are exactly [1 .. n], a move to a target position [t >= 1]
    leaves positions that are exactly [1 .. n] again. *)
Theorem applyLadderMove_keeps_the_ladder
    (roster : list Player) (c : string) (t n : Z) :
  NoDup (map pid roster) ->
  Permutation (map position roster) (positionsUpTo n) ->
  1 <= t ->
  Permutation (map position (mplayers (applyLadderMove roster c t)))
              (positionsUpTo n).
Proof.
  intros Hpid Hperm Ht.
  destruct (Z_le_gt_dec t n) as [Hle|Hgt].
  - now apply moved_positions_permutation.
  - rewrite applyLadderMove_unchanged; [exact Hperm|].
    unfold applyLadderMove.
    destruct (find (pidIs c) roster) as [ch|] eqn:Hfind; [|reflexivity].
    replace (position ch <=? t) with true; [reflexivity|].
    symmetry. apply Z.leb_le. apply find_some in Hfind.
    assert (1 <= position ch <= n); [|lia].
    apply In_positionsUpTo. eapply Permutation_in; [exact Hperm|].
    apply in_map. tauto.
Qed.

(* ================================================================= *)
(** * Further properties of the transactions *)

Lemma addStats_nonNegative c o w t mk p :
  countersNonNegative p ->
  0 <= p1Sets t -> 0 <= p2Sets t -> 0 <= p1Games t -> 0 <= p2Games t ->
  countersNonNegative (addStats c o w t mk p).
Proof.
  intros (H1 & H2 & H3 & H4 & H5 & H6 & H7 & H8 & H9 & H10 & H11) T1 T2 T3 T4.
  unfold addStats.
  destruct (negb (pid p =? c)%string && negb (pid p =? o)%string);
    [repeat split; assumption|].
  destruct (pid p =? c)%string;
    destruct ((w =? "p1")%string), ((w =? "p2")%string); simpl;
    (destruct mk as [k|]; [destruct k|]);
    unfold countersNonNegative, setMonthCount; simpl;
    rewrite ?orZero_id; repeat split; lia.
Qed.

Section AddInvariants.

Variable getMonth : string -> option Z.

(** The players of the snapshot an accepted add builds, on a roster with
    distinct pids: their positions are those of the move, and everything
    else is the statistics update of the roster. *)
Lemma added_players_shape
    (ps : list Player) (p1 : Player) (o w : string) (t : Z)
    (tot : Totals) (mk : option MonthKey) (shouldMove : bool) :
  NoDup (map pid ps) ->
  find (pidIs (pid p1)) ps = Some p1 ->
  let moved := if shouldMove then applyLadderMove ps (pid p1) t
               else {| mplayers := ps; applied := false |} in
  let updated :=
    map (fun p => if negb (applied moved) then p
                  else takePosition (mplayers moved) p)
        (map (addStats (pid p1) o w tot mk) ps) in
  map position updated = map position (mplayers moved)
  /\ map erasePosition updated
     = map (fun p => erasePosition (addStats (pid p1) o w tot mk p)) ps.
Proof.
  intros Hnd Hfind moved updated. subst updated.
  assert (Hplain :
    map position (map (fun p => p) (map (addStats (pid p1) o w tot mk) ps))
    = map position ps
    /\ map erasePosition (map (fun p => p) (map (addStats (pid p1) o w tot mk) ps))
       = map (fun p => erasePosition (addStats (pid p1) o w tot mk p)) ps).
  { rewrite map_id. split; [|now rewrite map_map].
    apply map_position_statsOnly, addStats_statsOnly. }
  destruct (applied moved) eqn:Happ; subst moved.
  - destruct shouldMove; [|discriminate]. unfold applyLadderMove in Happ |- *.
    rewrite Hfind in Happ |- *.
    destruct (position p1 <=? t) eqn:Hle; [discriminate|].
    apply Z.leb_gt in Hle. cbn [mplayers applied negb].
    rewrite setFirstPosition_map_NoDup by (auto using shiftDown_pid).
    change (fun p => if pidIs (pid p1) p
                     then setPosition t (shiftDown (pid p1) t (position p1) p)
                     else shiftDown (pid p1) t (position p1) p)
      with (moveOne (pid p1) t (position p1)).
    rewrite takePosition_image by auto using addStats_statsOnly, moveOne_pid.
    rewrite !map_map. split; apply map_ext; reflexivity.
  - cbn [negb]. destruct shouldMove.
    + rewrite (applyLadderMove_unchanged ps (pid p1) t Happ). exact Hplain.
    + exact Hplain.
Qed.

End AddInvariants.

Section AddTheorems.

Variable getMonth : string -> option Z.

(** X6: the record of an accepted add: it is put on top of the log, which is
    otherwise kept; it holds the new id, the form's date, winner and
    surface, and the trimmed score, which parses and validates; the two
    participants are different players of the roster, both named, and the
    opponent stands inside the active range; the start positions are the
    positions of the two before the move; and the ladder move is recorded
    as applied exactly when the challenger is the declared winner and
    started below the opponent. *)
Theorem actuallyAddMatch_record
    (f : AddForm.t) (newId : string) (state added : State) :
  1 <= playerCount state ->
  actuallyAddMatch getMonth f newId state = Next added ->
  exists r p1 p2,
    matches added = r :: matches state
    /\ playerCount added = playerCount state
    /\ id r = newId
    /\ date r = AddForm.matchDate f
    /\ winnerId r = AddForm.winner f
    /\ surface r = AddForm.surface f
    /\ score r = trim (AddForm.score f)
    /\ storedScoreValid r = true
    /\ In p1 (players state) /\ In p2 (players state)
    /\ challengerPid r = pid p1 /\ pid p1 = AddForm.challengerPid f
    /\ opponentPid r = pid p2 /\ pid p1 <> pid p2
    /\ trim (name p1) <> EmptyString /\ trim (name p2) <> EmptyString
    /\ challengerStartPos r = position p1
    /\ opponentStartPos r = position p2
    /\ positionPlayedFor r = position p2
    /\ 1 <= position p2 <= playerCount state
    /\ (ladderMoveApplied r = true
        <-> winnerId r = "p1" /\ position p2 < position p1).
Proof.
  intros Hcount Hadd.
  destruct (actuallyAddMatch_accepted getMonth f newId state added Hadd)
    as (p1 & p2 & _ & H2 & N2 & H1 & N1 & Hne & Hv & Hok & Hnext).
  pose proof (find_some _ _ H1) as [Hin1 Hc1].
  pose proof (find_some _ _ H2) as [Hin2 Hc2].
  apply pidIs_true in Hc1. apply Z.eqb_eq in Hc2.
  apply find_pidIs_self in H1.
  eexists. exists p1, p2. rewrite Hnext. cbv zeta.
  cbn [matches playerCount id date winnerId surface score challengerPid
       opponentPid challengerStartPos opponentStartPos positionPlayedFor
       ladderMoveApplied].
  repeat match goal with |- _ /\ _ => split end; try reflexivity; auto.
  - unfold storedScoreValid. cbn [score]. now rewrite parseScore_trim, Hv, Hok.
  - now apply String.eqb_neq.
  - intros E. rewrite E in N1. discriminate.
  - intros E. rewrite E in N2. discriminate.
  - rewrite Hc2. unfold clamp. lia.
  - rewrite Hc2. unfold clamp. lia.
  - cbn [ladderMoveApplied winnerId]. split.
    + destruct ((AddForm.winner f =? "p1")%string) eqn:Ew; simpl;
        [|discriminate].
      apply String.eqb_eq in Ew.
      destruct (position p1 >? position p2) eqn:Egt; simpl; [|discriminate].
      bool_to_prop. intros _. split; [assumption|lia].
    + intros [Hw Hlt]. rewrite Hw. simpl.
      replace (position p1 >? position p2) with true
        by (symmetry; rewrite Z.gtb_ltb; apply Z.ltb_lt; lia).
      destruct (challenger_lands_on_target (players state) (pid p1) (position p2)
                  p1 H1 Hlt) as [_ Happ].
      exact Happ.
Qed.

(** X7: an accepted add keeps the roster well formed: the pids and the names
    stay as they are, in the same order; the positions stay pairwise
    distinct and no counter becomes negative; and positions that were
    exactly [1 .. n] are exactly [1 .. n] again. *)
Theorem actuallyAddMatch_keeps_roster_well_formed
    (f : AddForm.t) (newId : string) (state added : State) (n : Z) :
  wellFormedRoster (players state) ->
  actuallyAddMatch getMonth f newId state = Next added ->
  wellFormedRoster (players added)
  /\ map pid (players added) = map pid (players state)
  /\ map name (players added) = map name (players state)
  /\ (Permutation (map position (players state)) (positionsUpTo n) ->
      Permutation (map position (players added)) (positionsUpTo n)).
Proof.
  intros (Hpid & Hpos & Hnn) Hadd.
  destruct (actuallyAddMatch_accepted getMonth f newId state added Hadd)
    as (p1 & p2 & _ & H2 & _ & H1 & _ & _ & Hv & Hok & Hnext).
  apply find_pidIs_self in H1.
  destruct (computeFromSets_nonNegative _ Hok) as (T1 & T2 & T3 & T4).
  cbv zeta in Hnext.
  set (tot := computeFromSets (sets (parseScore (AddForm.score f)))) in *.
  set (mk := monthKeyFromDateISO getMonth (AddForm.matchDate f)) in *.
  set (shouldMove := (AddForm.winner f =? "p1")%string
                     && (position p1 >? position p2)) in *.
  destruct (added_players_shape (players state) p1 (pid p2) (AddForm.winner f)
              (position p2) tot mk shouldMove Hpid H1) as [Hposs Herase].
  cbv zeta in Hposs, Herase.
  set (moved := if shouldMove
                then applyLadderMove (players state) (pid p1) (position p2)
                else {| mplayers := players state; applied := false |}) in *.
  assert (Hplayers : players added
                     = map (fun p => if negb (applied moved) then p
                                     else takePosition (mplayers moved) p)
                           (map (addStats (pid p1) (pid p2) (AddForm.winner f) tot mk)
                                (players state)))
    by (now rewrite Hnext).
  rewrite <- Hplayers in Hposs, Herase.
  assert (Hfield : forall (A : Type) (g : Player -> A),
             (forall p, g (erasePosition p) = g p) ->
             (forall p, g (addStats (pid p1) (pid p2) (AddForm.winner f) tot mk p) = g p) ->
             map g (players added) = map g (players state)).
  { intros A g Hg Ha.
    rewrite <- (map_ext _ _ (fun p => Hg p)), <- (map_map erasePosition g), Herase.
    rewrite map_map. apply map_ext. intros p. now rewrite Hg, Ha. }
  assert (Hmoved : NoDup (map position (mplayers moved))).
  { subst moved. destruct shouldMove; [|assumption].
    now apply applyLadderMove_NoDup. }
  split; [split; [|split]|split; [|split]].
  - rewrite (Hfield _ pid); auto.
    intros p. apply (proj1 (addStats_statsOnly _ _ _ _ _)).
  - now rewrite Hposs.
  - apply (Forall_countersNonNegative_erase _
             (map (addStats (pid p1) (pid p2) (AddForm.winner f) tot mk)
                  (players state))).
    + now rewrite map_map.
    + apply Forall_map. eapply Forall_impl; [|exact Hnn].
      intros p Hp. now apply addStats_nonNegative.
  - apply Hfield; auto. intros p. apply (proj1 (addStats_statsOnly _ _ _ _ _)).
  - apply Hfield; auto. intros p. unfold addStats.
    destruct (negb (pid p =? pid p1)%string && negb (pid p =? pid p2)%string);
      [reflexivity|]. now destruct mk.
  - intros Hperm. rewrite Hposs. subst moved.
    destruct shouldMove; [|exact Hperm].
    apply moved_positions_permutation; auto.
    pose proof (find_some _ _ H2) as [Hin2 _].
    apply (In_positionsUpTo n (position p2)).
    eapply Permutation_in; [exact Hperm|]. now apply in_map.
Qed.

End AddTheorems.

(** ** League totals *)







Section AddTotals.

Variable getMonth : string -> option Z.


End AddTotals.

(** ** What the add transaction does not look at *)





Section AddGuards.

Variable getMonth : string -> option Z.

(** X9: the declared winner, the date and the surface of the form play no part
    in the acceptance of an add: a form that is accepted stays accepted
    with any other winner, date and surface, and so with a winner that the
    score contradicts. *)
Theorem actuallyAddMatch_accepts_any_winner
    (f : AddForm.t) (newId : string) (state added : State)
    (w d s : string) :
  actuallyAddMatch getMonth f newId state = Next added ->
  exists added',
    actuallyAddMatch getMonth
      {| AddForm.locked := AddForm.locked f;
         AddForm.matchDate := d;
         AddForm.matchPos := AddForm.matchPos f;
         AddForm.challengerPid := AddForm.challengerPid f;
         AddForm.winner := w;
         AddForm.surface := s;
         AddForm.score := AddForm.score f |} newId state = Next added'.
Proof.
  intros Hadd.
  destruct (actuallyAddMatch_accepted getMonth f newId state added Hadd)
    as (p1 & p2 & Hl & H2 & N2 & H1 & N1 & Hne & Hv & Hok & Hnext).
  assert (Hc : isEmpty (AddForm.challengerPid f) = false).
  { destruct (AddForm.challengerPid f) eqn:E; [|reflexivity].
    revert Hadd. unfold actuallyAddMatch. rewrite Hl, H2, N2, E. discriminate. }
  eexists.
  unfold actuallyAddMatch. cbn [AddForm.locked AddForm.matchPos
    AddForm.challengerPid AddForm.score AddForm.winner AddForm.matchDate
    AddForm.surface].
  rewrite Hl, H2, N2, Hc, H1, N1, Hne, Hv, Hok. reflexivity.
Qed.



End AddGuards.

(** ** Further properties of the delete transaction *)

Lemma find_filter_negb {A : Type} (f : A -> bool) (l : list A) :
  find f (filter (fun x => negb (f x)) l) = None.
Proof.
  induction l as [|x l IH]; simpl; [reflexivity|].
  destruct (f x) eqn:E; simpl; [assumption|]. now rewrite E.
Qed.

Lemma Forall2_map_erasePosition (R : Player -> Player -> Prop)
    (g : Player -> Player) (l l' : list Player) :
  (forall p q, In p l -> erasePosition q = erasePosition (g p) -> R p q) ->
  map erasePosition l' = map erasePosition (map g l) ->
  Forall2 R l l'.
Proof.
  revert l'. induction l as [|p l IH]; intros l' HR Heq.
  - destruct l'; [constructor|discriminate].
  - destruct l' as [|q l']; [discriminate|]. simpl in Heq.
    pose proof (f_equal (hd (erasePosition q)) Heq) as Hq.
    pose proof (f_equal (@tl Player) Heq) as Hrest. simpl in Hq, Hrest.
    constructor.
    + apply HR; [now left|assumption].
    + apply IH; [|assumption]. intros p' q' Hin. apply HR. now right.
Qed.

Lemma reverseStats_counters_shrink c o w t mk p :
  countersNonNegative p ->
  0 <= p1Sets t -> 0 <= p2Sets t -> 0 <= p1Games t -> 0 <= p2Games t ->
  let q := reverseStats c o w t mk p in
  matchesPlayed q <= matchesPlayed p /\ matchesWon q <= matchesWon p
  /\ setsWon q <= setsWon p /\ setsLost q <= setsLost p
  /\ gamesWon q <= gamesWon p /\ gamesLost q <= gamesLost p
  /\ forall k, monthCount k q <= monthCount k p.
Proof.
  intros (H1 & H2 & H3 & H4 & H5 & H6 & H7 & H8 & H9 & H10 & H11) T1 T2 T3 T4 q.
  subst q. unfold reverseStats.
  destruct (negb (pid p =? c)%string && negb (pid p =? o)%string).
  { repeat split; lia. }
  destruct (pid p =? c)%string;
    destruct ((w =? "p1")%string), ((w =? "p2")%string); simpl;
    (destruct mk as [k0|]; [destruct k0|]);
    unfold setMonthCount, clampMin0, asNumber; simpl;
    rewrite ?orZero_id; repeat split; try lia;
    intros k; destruct k; simpl; lia.
Qed.

Section DeleteInvariants.

Variable getMonth : string -> option Z.

(** X11: a delete with an id that the log does not hold leaves the snapshot as
    it is, and a delete repeated with the same id does nothing more: the
    statistics and the ladder move of a match are reversed once. *)
Theorem deleteTransaction_twice (target : string) (state : State) :
  (find (fun m => (id m =? target)%string) (matches state) = None ->
   deleteTransaction getMonth target state = state)
  /\ deleteTransaction getMonth target (deleteTransaction getMonth target state)
     = deleteTransaction getMonth target state.
Proof.
  assert (Hnone : forall s,
             find (fun m => (id m =? target)%string) (matches s) = None ->
             deleteTransaction getMonth target s = s).
  { intros s H. unfold deleteTransaction. now rewrite H. }
  split; [apply Hnone|]. apply Hnone.
  unfold deleteTransaction at 1.
  destruct (find (fun m => (id m =? target)%string) (matches state)) eqn:E;
    [|assumption].
  cbn [matches]. apply (find_filter_negb (fun m => (id m =? target)%string)).
Qed.

(** X12: the delete transaction keeps the players of the roster in their places
    in the list, with their pids and names, and the player count; on a
    roster without negative counters no counter of any player grows or
    goes below zero. *)
Theorem deleteTransaction_keeps_the_players (target : string) (state : State) :
  Forall countersNonNegative (players state) ->
  let next := deleteTransaction getMonth target state in
  playerCount next = playerCount state
  /\ Forall2 (fun p q =>
                pid q = pid p /\ name q = name p
                /\ 0 <= matchesPlayed q <= matchesPlayed p
                /\ 0 <= matchesWon q <= matchesWon p
                /\ 0 <= setsWon q <= setsWon p
                /\ 0 <= setsLost q <= setsLost p
                /\ 0 <= gamesWon q <= gamesWon p
                /\ 0 <= gamesLost q <= gamesLost p
                /\ forall k, 0 <= monthCount k q <= monthCount k p)
             (players state) (players next).
Proof.
  intros Hnn next.
  set (R := fun p q : Player =>
              pid q = pid p /\ name q = name p
              /\ 0 <= matchesPlayed q <= matchesPlayed p
              /\ 0 <= matchesWon q <= matchesWon p
              /\ 0 <= setsWon q <= setsWon p
              /\ 0 <= setsLost q <= setsLost p
              /\ 0 <= gamesWon q <= gamesWon p
              /\ 0 <= gamesLost q <= gamesLost p
              /\ forall k, 0 <= monthCount k q <= monthCount k p).
  assert (Hrefl : forall p q, In p (players state) ->
                    erasePosition q = erasePosition p -> R p q).
  { intros p q Hin Heq.
    pose proof (proj1 (Forall_forall _ _) Hnn p Hin)
      as (H1 & H2 & H3 & H4 & H5 & H6 & H7 & H8 & H9 & H10 & H11).
    assert (Hf : forall (A : Type) (f : Player -> A),
               (forall x, f (erasePosition x) = f x) -> f q = f p).
    { intros A f Hfe. now rewrite <- (Hfe q), <- (Hfe p), Heq. }
    unfold R.
    rewrite (Hf _ pid), (Hf _ name), (Hf _ matchesPlayed), (Hf _ matchesWon),
      (Hf _ setsWon), (Hf _ setsLost), (Hf _ gamesWon), (Hf _ gamesLost)
      by reflexivity.
    repeat split; try lia;
      rewrite (Hf _ (monthCount k)) by (destruct k; reflexivity);
      destruct k; simpl; lia. }
  subst next. unfold deleteTransaction.
  destruct (find (fun m => (id m =? target)%string) (matches state)) as [m|] eqn:E.
  2:{ split; [reflexivity|].
      apply (Forall2_map_erasePosition R (fun p => p)).
      - intros p q Hin Heq. now apply Hrefl.
      - now rewrite map_id. }
  cbn [playerCount players]. split; [reflexivity|].
  set (back := reverseStats (challengerPid m) (opponentPid m) (winnerId m)
                 (computeFromSets (sets (parseScore (score m))))
                 (monthKeyFromDateISO getMonth (date m))).
  assert (Hstats :
    forall g, (g = back /\ ok (validateSets (sets (parseScore (score m)))) = true)
              \/ g = (fun p => p) ->
    forall l, map erasePosition l = map erasePosition (map g (players state)) ->
              Forall2 R (players state) l).
  { intros g Hg l Hl. apply (Forall2_map_erasePosition R g); [|assumption].
    intros p q Hin Heq. destruct Hg as [[-> Hok]| ->]; [|now apply Hrefl].
    pose proof (proj1 (Forall_forall _ _) Hnn p Hin) as Hp.
    destruct (computeFromSets_nonNegative _ Hok) as (T1 & T2 & T3 & T4).
    pose proof (reverseStats_counters_shrink (challengerPid m) (opponentPid m)
                  (winnerId m) _ (monthKeyFromDateISO getMonth (date m)) p
                  Hp T1 T2 T3 T4) as Hs.
    pose proof (reverseStats_nonNegative (challengerPid m) (opponentPid m)
                  (winnerId m) (computeFromSets (sets (parseScore (score m))))
                  (monthKeyFromDateISO getMonth (date m)) p Hp) as Hq.
    cbv zeta in Hs. fold back in Hs, Hq.
    destruct Hs as (S1 & S2 & S3 & S4 & S5 & S6 & S7).
    destruct Hq as (Q1 & Q2 & Q3 & Q4 & Q5 & Q6 & Q7 & Q8 & Q9 & Q10 & Q11).
    assert (Hf : forall (A : Type) (f : Player -> A),
               (forall x, f (erasePosition x) = f x) -> f q = f (back p)).
    { intros A f Hfe. now rewrite <- (Hfe q), <- (Hfe (back p)), Heq. }
    unfold R.
    rewrite (Hf _ pid), (Hf _ name), (Hf _ matchesPlayed), (Hf _ matchesWon),
      (Hf _ setsWon), (Hf _ setsLost), (Hf _ gamesWon), (Hf _ gamesLost)
      by reflexivity.
    assert (Hpid : pid (back p) = pid p) by apply reverseStats_statsOnly.
    assert (Hname : name (back p) = name p).
    { destruct (reverseStats_fields (challengerPid m) (opponentPid m)
                  (winnerId m) (computeFromSets (sets (parseScore (score m))))
                  (monthKeyFromDateISO getMonth (date m)) p) as [Ho Hpart].
      fold back in Ho, Hpart.
      destruct (string_dec (pid p) (challengerPid m)) as [A|A];
        [now destruct (Hpart (or_introl A)) as (_ & _ & ? & _)|].
      destruct (string_dec (pid p) (opponentPid m)) as [B|B];
        [now destruct (Hpart (or_intror B)) as (_ & _ & ? & _)|].
      now rewrite Ho. }
    repeat split; try lia; try assumption;
      rewrite (Hf _ (monthCount k)) by (destruct k; reflexivity);
      [destruct k; simpl; lia | apply S7]. }
  assert (Hladder : forall l,
    map erasePosition
        (if ladderMoveApplied m
         then reverseLadderMove l (challengerPid m)
                (challengerStartPos m) (opponentStartPos m)
         else l) = map erasePosition l).
  { intros l. destruct (ladderMoveApplied m); [|reflexivity].
    apply erasePosition_reverseLadderMove. }
  destruct (valid (parseScore (score m))).
  - destruct (ok (validateSets (sets (parseScore (score m))))) eqn:Hok.
    + apply (Hstats back); [now left|]. apply Hladder.
    + apply (Hstats (fun p => p)); [now right|]. rewrite map_id. apply Hladder.
  - apply (Hstats (fun p => p)); [now right|]. rewrite map_id. apply Hladder.
Qed.

End DeleteInvariants.

(** ** Further properties of the edit transaction *)



Lemma deltaStats_name c o w t mk dir p : name (deltaStats c o w t mk dir p) = name p.
Proof.
  unfold deltaStats.
  destruct (negb (pid p =? c)%string && negb (pid p =? o)%string);
    [reflexivity|].
  destruct mk as [k|]; [destruct k|]; reflexivity.
Qed.

Lemma reverseStats_name c o w t mk p : name (reverseStats c o w t mk p) = name p.
Proof.
  unfold reverseStats.
  destruct (negb (pid p =? c)%string && negb (pid p =? o)%string);
    [reflexivity|].
  destruct mk as [k|]; [destruct k|]; reflexivity.
Qed.

Lemma erasePosition_takePosition (moved : list Player) (p : Player) :
  erasePosition (takePosition moved p) = erasePosition p.
Proof.
  unfold takePosition. destruct (find (pidIs (pid p)) moved); reflexivity.
Qed.

Lemma map_erased_field {A : Type} (f : Player -> A) (l l' : list Player) :
  (forall p, f (erasePosition p) = f p) ->
  map erasePosition l = map erasePosition l' ->
  map f l = map f l'.
Proof.
  intros Hf Heq.
  rewrite <- (map_ext _ _ (fun p => Hf p)), <- (map_map erasePosition f), Heq.
  rewrite map_map. now apply map_ext.
Qed.

(** The identity of the players of the roster that the edit transaction
    builds from the roster [l]. *)
Lemma edited_players_identity (l moved : list Player) (m : Match)
    (c o w c' o' w' : string) (t t' : Totals) (mk mk' : option MonthKey) :
  let ladder :=
    if ladderMoveApplied m
    then reverseLadderMove l (challengerPid m)
           (challengerStartPos m) (opponentStartPos m)
    else l in
  let out := map (deltaStats c' o' w' t' mk' 1)
                 (map (takePosition moved)
                      (map (reverseStats c o w t mk) ladder)) in
  map pid out = map pid l /\ map name out = map name l.
Proof.
  intros ladder out.
  assert (Hladder : map erasePosition ladder = map erasePosition l).
  { subst ladder. destruct (ladderMoveApplied m); [|reflexivity].
    apply erasePosition_reverseLadderMove. }
  subst out. rewrite !map_map. split.
  - rewrite <- (map_erased_field pid _ _ (fun p => eq_refl) Hladder).
    apply map_ext. intros p.
    rewrite (proj1 (deltaStats_statsOnly c' o' w' t' mk' 1)).
    transitivity (pid (erasePosition (takePosition moved (reverseStats c o w t mk p))));
      [reflexivity|].
    rewrite erasePosition_takePosition. apply reverseStats_statsOnly.
  - rewrite <- (map_erased_field name _ _ (fun p => eq_refl) Hladder).
    apply map_ext. intros p. rewrite deltaStats_name.
    transitivity (name (erasePosition (takePosition moved (reverseStats c o w t mk p))));
      [reflexivity|].
    rewrite erasePosition_takePosition. apply reverseStats_name.
Qed.

Section EditInvariants.

Variable getMonth : string -> option Z.

(** What an accepted edit went through, and the snapshot it built. *)
Lemma actuallySaveEdit_accepted (e : EditForm) (state edited : State) :
  actuallySaveEdit getMonth e state = Next edited ->
  exists m p1 p2,
    isEmpty (editId e) = false
    /\ find (fun x => (id x =? editId e)%string) (matches state) = Some m
    /\ valid (parseScore (editScore e)) = true
    /\ ok (validateSets (sets (parseScore (editScore e)))) = true
    /\ storedScoreValid m = true
    /\ let ladder :=
         if ladderMoveApplied m
         then reverseLadderMove (players state) (challengerPid m)
                (challengerStartPos m) (opponentStartPos m)
         else players state in
       let Q := map (reverseStats (challengerPid m) (opponentPid m) (winnerId m)
                       (computeFromSets (sets (parseScore (score m))))
                       (monthKeyFromDateISO getMonth (date m))) ladder in
       find (pidIs (challengerPid m)) Q = Some p1
       /\ find (pidIs (opponentPid m)) Q = Some p2
       /\ let tot := computeFromSets (sets (parseScore (editScore e))) in
          let mk := monthKeyFromDateISO getMonth (editDate e) in
          let moved :=
            if (editWinner e =? "p1")%string && (position p1 >? position p2)
            then applyLadderMove Q (pid p1) (position p2)
            else {| mplayers := Q; applied := false |} in
          edited
          = {| playerCount := playerCount state;
               players :=
                 map (deltaStats (challengerPid m) (opponentPid m) (editWinner e)
                                 tot mk 1)
                     (map (takePosition (mplayers moved)) Q);
               matches :=
                 map (fun x => if (id x =? id m)%string
                               then {| id := id m;
                                       date := editDate e;
                                       positionPlayedFor := position p2;
                                       challengerPid := challengerPid m;
                                       opponentPid := opponentPid m;
                                       winnerId := editWinner e;
                                       score := trim (editScore e);
                                       surface := editSurface e;
                                       challengerStartPos := position p1;
                                       opponentStartPos := position p2;
                                       ladderMoveApplied := applied moved |}
                               else x)
                     (matches state) |}.
Proof.
  unfold actuallySaveEdit.
  destruct (isEmpty (editId e)) eqn:He; [discriminate|].
  destruct (find _ (matches state)) as [m|] eqn:Hfind; [|discriminate].
  destruct (valid (parseScore (editScore e))) eqn:Hv; [|discriminate].
  destruct (ok (validateSets (sets (parseScore (editScore e))))) eqn:Hok;
    [|discriminate].
  simpl negb. cbv iota.
  destruct (storedScoreValid m) eqn:Hstored.
  2:{ unfold applyMatchDelta. unfold storedScoreValid in Hstored.
      destruct (valid (parseScore (score m))); simpl; [|discriminate].
      simpl in Hstored. rewrite Hstored. discriminate. }
  destruct (deleted_players getMonth state (editId e) m Hfind Hstored)
    as [_ Hdelta].
  cbv zeta in Hdelta. rewrite Hdelta.
  set (Q := map _ (if ladderMoveApplied m then _ else _)).
  destruct (find (pidIs (challengerPid m)) Q) as [p1|] eqn:F1; [|discriminate].
  destruct (find (pidIs (opponentPid m)) Q) as [p2|] eqn:F2; [|discriminate].
  unfold applyMatchDelta.
  cbn [score date challengerPid opponentPid winnerId id].
  rewrite parseScore_trim, Hv, Hok. simpl negb. cbv iota.
  intros [= <-]. exists m, p1, p2. repeat split; auto.
Qed.

(** X13: an accepted edit keeps the log in its order and every record under
    its id: the records with other ids stay as they are, and the record
    edited keeps its two participants, takes the date, winner and surface
    of the form and the trimmed score, which parses and validates.  The
    roster keeps its pids and names, and the player count stays. *)
Theorem actuallySaveEdit_keeps_the_log (e : EditForm) (state edited : State) :
  actuallySaveEdit getMonth e state = Next edited ->
  exists m r,
    find (fun x => (id x =? editId e)%string) (matches state) = Some m
    /\ matches edited
       = map (fun x => if (id x =? editId e)%string then r else x) (matches state)
    /\ map id (matches edited) = map id (matches state)
    /\ id r = editId e
    /\ challengerPid r = challengerPid m /\ opponentPid r = opponentPid m
    /\ date r = editDate e /\ winnerId r = editWinner e
    /\ surface r = editSurface e /\ score r = trim (editScore e)
    /\ storedScoreValid r = true
    /\ positionPlayedFor r = opponentStartPos r
    /\ playerCount edited = playerCount state
    /\ map pid (players edited) = map pid (players state)
    /\ map name (players edited) = map name (players state).
Proof.
  intros Hedit.
  destruct (actuallySaveEdit_accepted e state edited Hedit)
    as (m & p1 & p2 & He & Hfind & Hv & Hok & Hstored & Hrest).
  cbv zeta in Hrest. destruct Hrest as (F1 & F2 & Hnext).
  assert (Hid : id m = editId e).
  { apply find_some in Hfind. destruct Hfind as [_ Hfind].
    now apply String.eqb_eq in Hfind. }
  rewrite Hid in Hnext.
  exists m. eexists. split; [exact Hfind|].
  split; [rewrite Hnext; reflexivity|].
  split.
  { rewrite Hnext. cbn [matches]. rewrite map_map. apply map_ext. intros x.
    destruct (id x =? editId e)%string eqn:E; [|reflexivity].
    apply String.eqb_eq in E. now rewrite E. }
  cbn [id challengerPid opponentPid date winnerId surface score
       positionPlayedFor opponentStartPos].
  unfold storedScoreValid. cbn [score]. rewrite parseScore_trim, Hv, Hok.
  rewrite Hnext. cbn [playerCount players].
  repeat split; apply edited_players_identity.
Qed.

End EditInvariants.

Section EditAndDelete.

Variable getMonth : string -> option Z.

(** X14: a record whose stored score does not parse and validate again cannot
    be edited, whatever the form holds: every edit of it fails and leaves
    the snapshot as it is.  With a new score that parses and validates, the
    failure is the one of the stored score. *)
Theorem actuallySaveEdit_needs_a_valid_stored_score
    (e : EditForm) (state : State) (m : Match) :
  find (fun x => (id x =? editId e)%string) (matches state) = Some m ->
  storedScoreValid m = false ->
  (forall edited, actuallySaveEdit getMonth e state <> Next edited)
  /\ (isEmpty (editId e) = false ->
      storedScoreValid
        {| id := id m; date := date m; positionPlayedFor := positionPlayedFor m;
           challengerPid := challengerPid m; opponentPid := opponentPid m;
           winnerId := winnerId m; score := editScore e; surface := surface m;
           challengerStartPos := challengerStartPos m;
           opponentStartPos := opponentStartPos m;
           ladderMoveApplied := ladderMoveApplied m |} = true ->
      actuallySaveEdit getMonth e state
      = Failed "Stored score invalid; can't edit safely.").
Proof.
  intros Hfind Hstored. split.
  - intros edited Hedit.
    destruct (actuallySaveEdit_accepted getMonth e state edited Hedit)
      as (m' & _ & _ & _ & Hfind' & _ & _ & Hstored' & _).
    congruence.
  - intros He Hnew. unfold storedScoreValid in Hnew. cbn [score] in Hnew.
    apply andb_true_iff in Hnew. destruct Hnew as [Hv Hok].
    unfold actuallySaveEdit. rewrite He, Hfind, Hv, Hok. simpl negb. cbv iota.
    unfold applyMatchDelta at 1. unfold storedScoreValid in Hstored.
    destruct (valid (parseScore (score m))); simpl; [|reflexivity].
    simpl in Hstored. now rewrite Hstored.
Qed.


End EditAndDelete.

(* ================================================================= *)
(** * Further properties of the score pipeline *)

(** ** The tokeniser *)

Lemma append_empty_r (s : string) : s ++ EmptyString = s.
Proof. induction s as [|c r IH]; simpl; [reflexivity|]. now rewrite IH. Qed.

Lemma append_assoc (a b c : string) : (a ++ b) ++ c = a ++ (b ++ c).
Proof. induction a as [|x r IH]; simpl; [reflexivity|]. now rewrite IH. Qed.

Lemma join_cons (sep x : string) (l : list string) :
  l <> [] -> join sep (x :: l) = x ++ sep ++ join sep l.
Proof. destruct l as [|y l]; [congruence|]. reflexivity. Qed.

(** A split on one character joined with another one replaces the
    character throughout. *)
Lemma join_split_go_char (a b : ascii) (cur s : string) :
  join (String b EmptyString) (split_go (String a EmptyString) 0 cur s)
  = cur ++ replaceChar a b s.
Proof.
  revert cur. induction s as [|x r IH]; intros cur.
  - simpl. now rewrite append_empty_r.
  - cbn [split_go replaceChar]. rewrite prefix_char.
    destruct (x =? a)%char.
    + change (String.length (String a EmptyString) - 1)%nat with 0%nat.
      rewrite join_cons by apply split_go_not_nil. now rewrite IH.
    + rewrite IH, append_assoc. reflexivity.
Qed.

Lemma join_split_char (a b : ascii) (s : string) :
  join (String b EmptyString) (split (String a EmptyString) s) = replaceChar a b s.
Proof. apply (join_split_go_char a b EmptyString). Qed.

(** A split on the space, without the empty pieces. *)
Lemma filter_split_go_space (cur s : string) :
  filter (fun part => negb (isEmpty part)) (split_go " " 0 cur s)
  = runsFrom isSpace cur s.
Proof.
  revert cur. induction s as [|x r IH]; intros cur.
  - simpl. now destruct cur.
  - cbn [split_go runsFrom]. rewrite prefix_char. unfold isSpace at 1.
    destruct (x =? " ")%char.
    + change (String.length " " - 1)%nat with 0%nat. cbn [filter].
      rewrite IH. now destruct cur.
    + apply IH.
Qed.

Lemma runsFrom_append_blank (blank : ascii -> bool) (sp : ascii)
    (cur a b : string) :
  blank sp = true ->
  runsFrom blank cur (a ++ String sp b)
  = (runsFrom blank cur a ++ runsFrom blank EmptyString b)%list.
Proof.
  intros Hsp. revert cur. induction a as [|x r IH]; intros cur.
  - simpl. rewrite Hsp. now destruct cur.
  - simpl. destruct (blank x); [|apply IH].
    destruct (isEmpty cur); now rewrite IH.
Qed.

(** One pass of the loop that collapses double spaces keeps the runs. *)
Lemma runs_join_split_go_double (s : string) :
  (forall cur,
     runsFrom isSpace EmptyString (join " " (split_go "  " 0 cur s))
     = runsFrom isSpace EmptyString (cur ++ s))
  /\ (forall cur,
        runsFrom isSpace EmptyString (join " " (split_go "  " 1 cur s))
        = runsFrom isSpace EmptyString (cur ++ dropFirst s)).
Proof.
  induction s as [|c r [IH0 IH1]].
  - split; intros cur; simpl; now rewrite append_empty_r.
  - split; intros cur; [|apply IH0].
    cbn [split_go].
    destruct (String.prefix "  " (String c r)) eqn:Hp.
    + change (String.length "  " - 1)%nat with 1%nat.
      cbn [String.prefix] in Hp.
      destruct (ascii_dec " " c) as [<-|]; [|discriminate].
      destruct r as [|c' r']; cbn [String.prefix] in Hp; [discriminate|].
      destruct (ascii_dec " " c') as [<-|]; [|discriminate].
      rewrite join_cons by apply split_go_not_nil.
      change (" " ++ ?x) with (String " " x).
      rewrite !(runsFrom_append_blank isSpace " ") by reflexivity.
      rewrite IH1. reflexivity.
    + rewrite IH0, append_assoc. reflexivity.
Qed.

Lemma runs_collapseLoop (fuel : nat) (s : string) :
  runsFrom isSpace EmptyString (collapseLoop fuel s)
  = runsFrom isSpace EmptyString s.
Proof.
  revert s. induction fuel as [|f IH]; intros s; [reflexivity|].
  cbn [collapseLoop]. destruct (includes "  " s); [|reflexivity].
  rewrite IH. apply (proj1 (runs_join_split_go_double s) EmptyString).
Qed.

Lemma runsFrom_replaceChar (cur s : string) :
  runsFrom isSpace cur
    (replaceChar (ascii_of_nat 9) " " (replaceChar (ascii_of_nat 10) " " s))
  = runsFrom isBlank cur s.
Proof.
  revert cur. induction s as [|x r IH]; intros cur; [reflexivity|].
  cbn [replaceChar runsFrom]. unfold isSpace at 1, isBlank at 1.
  destruct (x =? ascii_of_nat 10)%char eqn:E10.
  - rewrite orb_true_r. simpl. destruct (isEmpty cur); now rewrite IH.
  - destruct (x =? ascii_of_nat 9)%char eqn:E9.
    + rewrite orb_true_r. simpl. destruct (isEmpty cur); now rewrite IH.
    + rewrite !orb_false_r. destruct (x =? " ")%char; [|apply IH].
      destruct (isEmpty cur); now rewrite IH.
Qed.

Lemma scoreParts_tokens (raw : string) : scoreParts raw = tokens raw.
Proof.
  unfold scoreParts, tokens, split, collapseSpaces.
  rewrite filter_split_go_space, runs_collapseLoop.
  fold (split NL raw). unfold NL, TAB. rewrite join_split_char.
  fold (split (String (ascii_of_nat 9) EmptyString)
              (replaceChar (ascii_of_nat 10) " " raw)).
  change " " with (String " " EmptyString) at 1.
  rewrite join_split_char. apply runsFrom_replaceChar.
Qed.

(** X16: the tokens that [parseScore] reads are the maximal runs of characters
    other than space, line feed and tab, from the left to the right: the
    amount and the kind of blank space between two tokens, and before the
    first and after the last one, make no difference. *)
Theorem scoreParts_are_the_runs (raw : string) :
  scoreParts raw = tokens raw
  /\ parseScore raw
     = (if isEmpty (trim raw)
        then {| valid := false; sets := [];
                message := Some "Please enter a score (e.g. 6-4 6-3)." |}
        else parseLoop (tokens (trim raw)) []).
Proof.
  split; [apply scoreParts_tokens|].
  unfold parseScore. now rewrite scoreParts_tokens.
Qed.

(** ** The parser *)

Lemma isBlank_isWhiteSpace (c : ascii) : isBlank c = true -> isWhiteSpace c = true.
Proof.
  unfold isBlank. intros H. apply orb_true_iff in H. destruct H as [H|H].
  - apply orb_true_iff in H. destruct H as [H|H];
      apply Ascii.eqb_eq in H; now subst c.
  - apply Ascii.eqb_eq in H. now subst c.
Qed.

Lemma trimEnd_head (c : ascii) (r : string) :
  isWhiteSpace c = false -> exists r', trimEnd (String c r) = String c r'.
Proof.
  intros W. rewrite trimEnd_cons. destruct (trimEnd r); rewrite ?W; eauto.
Qed.

(** A trimmed text that is not empty starts with a character that is not
    white space. *)
Lemma trim_head (s : string) (c : ascii) (r : string) :
  trim s = String c r -> isWhiteSpace c = false.
Proof.
  unfold trim. induction s as [|x s IH]; [discriminate|].
  cbn [trimStart]. destruct (isWhiteSpace x) eqn:W; [exact IH|].
  destruct (trimEnd_head x s W) as [r' ->]. now intros [= <- _].
Qed.

Lemma runsFrom_not_nil (blank : ascii -> bool) (cur s : string) :
  isEmpty cur = false -> runsFrom blank cur s <> [].
Proof.
  revert cur. induction s as [|x r IH]; intros cur Hcur; simpl.
  - now rewrite Hcur.
  - destruct (blank x); [now rewrite Hcur|].
    apply IH. now destruct cur.
Qed.

Lemma parseLoop_valid (parts : list string) (acc : list SetScore) :
  valid (parseLoop parts acc) = true ->
  message (parseLoop parts acc) = None
  /\ exists new,
       sets (parseLoop parts acc) = (acc ++ new)%list
       /\ Forall2 (fun part st => parsePart part = Some st) parts new.
Proof.
  revert acc. induction parts as [|part rest IH]; intros acc; simpl.
  - intros _. split; [reflexivity|]. exists []. now rewrite app_nil_r.
  - destruct (parsePart part) as [st|] eqn:E; [|discriminate].
    intros H. destruct (IH _ H) as (Hm & new & Hs & HF).
    split; [assumption|]. exists (st :: new).
    rewrite Hs, <- app_assoc. split; [reflexivity|]. now constructor.
Qed.

(** X17: [parseScore] gives all the sets or none.  A text is read as valid
    exactly when it holds a character that is not white space and every
    token of it is read; the result then holds one set pair for each
    token, in the order of the text, and at least one, and no message.  A
    text that is not valid gives no set pair and a message. *)
Theorem parseScore_all_or_nothing (scoreStr : string) :
  let parsed := parseScore scoreStr in
  let parts := tokens (trim scoreStr) in
  (valid parsed = true
   <-> isEmpty (trim scoreStr) = false
       /\ Forall (fun part => parsePart part <> None) parts)
  /\ (valid parsed = true ->
      message parsed = None /\ sets parsed <> []
      /\ Forall2 (fun part st => parsePart part = Some st) parts (sets parsed))
  /\ (valid parsed = false ->
      sets parsed = [] /\ exists msg, message parsed = Some msg).
Proof.
  intros parsed parts. subst parsed parts. unfold parseScore.
  rewrite <- scoreParts_tokens.
  destruct (isEmpty (trim scoreStr)) eqn:Hraw.
  { cbn [valid sets message]. split; [|split].
    - split; [discriminate|]. intros [H _]. discriminate.
    - discriminate.
    - intros _. split; [reflexivity|]. eauto. }
  assert (Hparts : scoreParts (trim scoreStr) <> []).
  { rewrite scoreParts_tokens. unfold tokens.
    destruct (trim scoreStr) as [|c r] eqn:E; [discriminate|].
    apply trim_head in E. cbn [runsFrom].
    destruct (isBlank c) eqn:B;
      [apply isBlank_isWhiteSpace in B; congruence|].
    now apply runsFrom_not_nil. }
  split; [|split].
  - split.
    + intros Hv. split; [reflexivity|].
      destruct (parseLoop_valid _ _ Hv) as (_ & new & _ & HF).
      clear -HF. induction HF; constructor; [congruence|assumption].
    + intros [_ HF]. clear Hparts. generalize (@nil SetScore).
      induction HF as [|part rest Hpart _ IH]; intros acc; [reflexivity|].
      simpl. destruct (parsePart part); [apply IH|congruence].
  - intros Hv. destruct (parseLoop_valid _ _ Hv) as (Hm & new & Hs & HF).
    simpl in Hs. rewrite Hs. split; [assumption|]. split; [|assumption].
    intros ->. inversion HF as [Hnil|]. now apply Hparts.
  - intros Hv.
    destruct (parseLoop_failure _ _ Hv) as (good & bad & rest & _ & _ & _ & ->).
    split; [reflexivity|]. unfold cantRead. cbn [message]. eauto.
Qed.

(** ** The validator and the aggregator *)

Lemma checkSet_swapSides (s : SetScore) : checkSet (swapSides s) = checkSet s.
Proof.
  unfold checkSet, swapSides, asNumber. cbn [p1 p2].
  rewrite (orb_comm (p2 s <? 0)), (Z.eqb_sym (p2 s)),
    (Z.max_comm (p2 s)), (Z.min_comm (p2 s)).
  reflexivity.
Qed.

Lemma checkSet_passes_unequal (s : SetScore) : checkSet s = None -> p1 s <> p2 s.
Proof.
  unfold checkSet, asNumber. cbv zeta.
  destruct ((p1 s <? 0) || (p2 s <? 0)); [discriminate|].
  destruct (p1 s =? p2 s) eqn:E; [discriminate|]. intros _.
  now apply Z.eqb_neq.
Qed.

Lemma validateLoop_swapSides (sets : list SetScore) (a b : Z) :
  validateLoop (map swapSides sets) b a = validateLoop sets a b.
Proof.
  revert a b. induction sets as [|s rest IH]; intros a b; simpl.
  - now rewrite Z.eqb_sym.
  - rewrite checkSet_swapSides. destruct (checkSet s) eqn:Hc; [reflexivity|].
    apply checkSet_passes_unequal in Hc. rewrite !Z.gtb_ltb.
    destruct (p2 s <? p1 s) eqn:E1, (p1 s <? p2 s) eqn:E2; bool_to_prop;
      try lia; apply IH.
Qed.

Lemma computeLoop_swapSides (sets : list SetScore) (t : Totals) :
  computeLoop (map swapSides sets)
              (mkTotals (p2Sets t) (p1Sets t) (p2Games t) (p1Games t))
  = let r := computeLoop sets t in
    mkTotals (p2Sets r) (p1Sets r) (p2Games r) (p1Games r).
Proof.
  revert t. induction sets as [|s rest IH]; intros t; [reflexivity|].
  cbn [map computeLoop swapSides p1 p2 p1Sets p2Sets p1Games p2Games].
  rewrite !Z.gtb_ltb.
  destruct (p2 s <? p1 s) eqn:E1, (p1 s <? p2 s) eqn:E2; bool_to_prop;
    try lia; apply (IH (mkTotals _ _ _ _)).
Qed.

(** X18: the rules and the tally do not favour a side: with the two sides of
    every set exchanged, [validateSets] gives the same verdict with the
    same message, and [computeFromSets] gives the totals of the two sides
    exchanged. *)
Theorem score_rules_are_symmetric (sets : list SetScore) :
  validateSets (map swapSides sets) = validateSets sets
  /\ computeFromSets (map swapSides sets)
     = let r := computeFromSets sets in
       mkTotals (p2Sets r) (p1Sets r) (p2Games r) (p1Games r).
Proof.
  split.
  - unfold validateSets. rewrite length_map.
    destruct (length sets <? 2)%nat; [reflexivity|].
    apply validateLoop_swapSides.
  - apply (computeLoop_swapSides sets (mkTotals 0 0 0 0)).
Qed.

Lemma computeLoop_tallies (sets : list SetScore) (t : Totals) :
  let r := computeLoop sets t in
  p1Sets r = p1Sets t + setsWonBySide1 sets
  /\ p2Sets r = p2Sets t + setsWonBySide2 sets
  /\ p1Games r = p1Games t + fold_right Z.add 0 (map p1 sets)
  /\ p2Games r = p2Games t + fold_right Z.add 0 (map p2 sets).
Proof.
  revert t. induction sets as [|s rest IH]; intros t.
  - unfold setsWonBySide1, setsWonBySide2. simpl. repeat split; lia.
  - cbn [computeLoop]. unfold setsWonBySide1, setsWonBySide2 in *.
    cbn [filter map fold_right]. rewrite !Z.gtb_ltb.
    destruct (p2 s <? p1 s) eqn:E1, (p1 s <? p2 s) eqn:E2; bool_to_prop;
      try lia;
      match goal with
      | |- context [computeLoop rest ?t'] =>
          destruct (IH t') as (H1 & H2 & H3 & H4)
      end;
      cbv zeta; rewrite H1, H2, H3, H4; cbn [p1Sets p2Sets p1Games p2Games length];
      rewrite ?Nat2Z.inj_succ; repeat split; lia.
Qed.

(** X19: the totals of [computeFromSets]: the sets each side won and the games
    of each side summed over the sets.  On a sequence that [validateSets]
    accepts every set is credited to one side, and the two sides are never
    credited the same number of sets. *)
Theorem computeFromSets_tallies (sets : list SetScore) :
  let r := computeFromSets sets in
  p1Sets r = setsWonBySide1 sets
  /\ p2Sets r = setsWonBySide2 sets
  /\ p1Games r = fold_right Z.add 0 (map p1 sets)
  /\ p2Games r = fold_right Z.add 0 (map p2 sets)
  /\ (ok (validateSets sets) = true ->
      p1Sets r + p2Sets r = Z.of_nat (length sets)
      /\ p1Sets r <> p2Sets r).
Proof.
  intros r. destruct (computeLoop_tallies sets (mkTotals 0 0 0 0))
    as (H1 & H2 & H3 & H4).
  fold (computeFromSets sets) in H1, H2, H3, H4. fold r in H1, H2, H3, H4.
  cbn [p1Sets p2Sets p1Games p2Games] in H1, H2, H3, H4.
  repeat (split; [lia|]).
  intros Hok. rewrite H1, H2. unfold validateSets in Hok.
  destruct (length sets <? 2)%nat; [discriminate|].
  apply validateLoop_ok in Hok. destruct Hok as [Hlegal Hne].
  split; [|lia].
  clear -Hlegal. unfold setsWonBySide1, setsWonBySide2.
  induction Hlegal as [|s rest Hs _ IH]; [reflexivity|].
  destruct Hs as (_ & _ & Hs & _). cbn [filter length].
  destruct (p2 s <? p1 s) eqn:E1, (p1 s <? p2 s) eqn:E2; bool_to_prop;
    try lia; cbn [length]; rewrite ?Nat2Z.inj_succ; lia.
Qed.

(* ================================================================= *)
(** * Cloud storage *)

Lemma byPosOf_rev (rows : list PlayerRow) :
  byPosOf rows
  = rev (map (fun row => (Number_orNull (row_position row), row)) rows).
Proof.
  unfold byPosOf.
  assert (H : forall acc,
             fold_left (fun m row =>
                          (Number_orNull (row_position row), row) :: m)
                       rows acc
             = (rev (map (fun row =>
                            (Number_orNull (row_position row), row))
                         rows) ++ acc)%list).
  { induction rows as [|r rows IH]; intros acc; [reflexivity|].
    simpl. rewrite IH, <- app_assoc. reflexivity. }
  rewrite H. apply app_nil_r.
Qed.

Lemma find_unique_key {V : Type} (l : list (Z * V)) (k : Z) (v : V) :
  NoDup (map fst l) -> In (k, v) l ->
  find (fun kv => fst kv =? k) l = Some (k, v).
Proof.
  induction l as [|[k' v'] l IH]; intros Hnd Hin; [contradiction|].
  inversion Hnd as [|? ? Hnotin Hnd']; subst. simpl.
  destruct Hin as [[= -> ->]|Hin].
  - now rewrite Z.eqb_refl.
  - destruct (k' =? k) eqn:E; [|now apply IH].
    apply Z.eqb_eq in E. subst k'. exfalso. apply Hnotin.
    change k with (fst (k, v)). now apply in_map.
Qed.

Lemma playerFromRow_pRow (p : Player) : playerFromRow (position p) (pRow p) = p.
Proof.
  destruct p. unfold playerFromRow, pRow. simpl. now rewrite !orZero_id.
Qed.

Section LoadAndSave.

Variable getMonth : string -> option Z.


(** X21: saving and loading again.  For a roster whose positions are 1 to
    [CAPACITY], the rows that the handler writes for the players, read in
    any order, are loaded as the same players with the same counters, in
    the order of their positions. *)
Theorem load_after_save_restores_the_roster
    (roster : list Player) (pData : list PlayerRow)
    (mData : list MatchRow) (setting : option Z) :
  Permutation (map position roster) (positionsUpTo CAPACITY) ->
  Permutation pData (pRows roster) ->
  let loaded := players (fetchCloudState pData mData setting) in
  Permutation loaded roster
  /\ (map position roster = positionsUpTo CAPACITY -> loaded = roster).
Proof.
  intros Hperm Hrows loaded.
  assert (Hnd : NoDup (map position roster)).
  { apply (Permutation_NoDup (Permutation_sym Hperm)), NoDup_positionsUpTo. }
  assert (Hget : forall p, In p roster ->
             byPos_get (position p) (byPosOf pData) = Some (pRow p)).
  { intros p Hp. unfold byPos_get. rewrite byPosOf_rev.
    set (key := fun row => (Number_orNull (row_position row), row)).
    rewrite (find_unique_key _ (position p) (pRow p)); [reflexivity| |].
    - rewrite map_rev. apply NoDup_rev. rewrite map_map.
      apply (Permutation_NoDup
               (l := map (fun row => fst (key row)) (pRows roster))).
      + apply Permutation_map, Permutation_sym, Hrows.
      + unfold pRows. rewrite map_map. exact Hnd.
    - apply in_rev. rewrite rev_involutive.
      change (position p, pRow p) with (key (pRow p)). apply in_map.
      apply (Permutation_in _ (Permutation_sym Hrows)).
      now apply in_map. }
  assert (Hload : forall l, incl l roster ->
             map (fun pos => match byPos_get pos (byPosOf pData) with
                             | None => createEmptyPlayer pos
                             | Some row => playerFromRow pos row
                             end) (map position l) = l).
  { intros l Hl. rewrite map_map. rewrite <- (map_id l) at 2.
    apply map_ext_in. intros p Hp. rewrite (Hget p (Hl p Hp)).
    apply playerFromRow_pRow. }
  split.
  - destruct (Permutation_map_inv position roster (Permutation_sym Hperm))
      as (l3 & Hl3 & Hp3).
    subst loaded. unfold fetchCloudState. cbn [players]. rewrite Hl3.
    rewrite Hload; [now apply Permutation_sym|].
    intros p Hp. now apply (Permutation_in _ (Permutation_sym Hp3)).
  - intros Hsorted. subst loaded. unfold fetchCloudState. cbn [players].
    rewrite <- Hsorted. apply Hload, incl_refl.
Qed.

(** X22: a match record survives saving and loading as it is when its winner is
    [p1] or [p2] and the position played for is not 0. *)
Theorem load_after_save_restores_a_match (m : Match) :
  winnerId m = "p1" \/ winnerId m = "p2" ->
  positionPlayedFor m <> 0 ->
  matchFromRow (mRow m) = m.
Proof.
  intros Hw Hp. destruct m. unfold matchFromRow, mRow. simpl in *.
  rewrite !orZero_id.
  replace (positionPlayedFor0 =? 0) with false
    by (symmetry; now apply Z.eqb_neq).
  destruct Hw as [-> | ->]; reflexivity.
Qed.

End LoadAndSave.

(* ================================================================= *)
(** * The views *)






Lemma map_has_get (k : string) (m : list (string * Result)) :
  map_has k m = true <-> In k (map fst m).
Proof.
  unfold map_has. rewrite existsb_exists, in_map_iff. split.
  - intros (kv & Hin & Hk). apply String.eqb_eq in Hk. now exists kv.
  - intros (kv & Hk & Hin). exists kv. split; [assumption|].
    now apply String.eqb_eq.
Qed.

Lemma map_get_none (k : string) (m : list (string * Result)) :
  map_get k m = None <-> ~ In k (map fst m).
Proof.
  unfold map_get. rewrite <- map_has_get. unfold map_has.
  induction m as [|[k' r] m IH]; simpl; [intuition discriminate|].
  destruct (k' =? k)%string; simpl; [intuition discriminate|exact IH].
Qed.

Lemma map_get_set (k c : string) (r : Result) (m : list (string * Result)) :
  map_get c (m ++ [(k, r)])
  = match map_get c m with
    | Some x => Some x
    | None => if (k =? c)%string then Some r else None
    end.
Proof.
  unfold map_get. induction m as [|[k' r'] m IH]; simpl.
  - now destruct (k =? c)%string.
  - destruct (k' =? c)%string; [reflexivity|exact IH].
Qed.

Lemma firstResult_none (c : string) (view : list Match) :
  (forall x, In x view -> challengerPid x <> c /\ opponentPid x <> c) ->
  firstResult c view = None.
Proof.
  induction view as [|x rest IH]; intros H; [reflexivity|]. simpl.
  destruct (H x (or_introl eq_refl)) as [Hc Ho].
  apply String.eqb_neq in Hc, Ho. rewrite Hc, Ho.
  apply IH. intros y Hy. apply H. now right.
Qed.

Lemma lastResultLoop_get (view : list Match) (pids : list string)
    (m : list (string * Result)) (c : string) :
  (forall x, In x view -> In (challengerPid x) pids /\ In (opponentPid x) pids) ->
  NoDup (map fst m) -> incl (map fst m) pids ->
  map_get c (lastResultLoop view (length pids) m)
  = match map_get c m with
    | Some r => Some r
    | None => firstResult c view
    end.
Proof.
  revert m. induction view as [|x rest IH]; intros m Hview Hnd Hincl.
  - simpl. now destruct (map_get c m).
  - destruct (Hview x (or_introl eq_refl)) as [Hcx Hox].
    cbn [lastResultLoop firstResult].
    set (m1 := if negb (map_has (challengerPid x) m)
               then (m ++ [(challengerPid x,
                            if (winnerId x =? "p1")%string then win else loss)])%list
               else m).
    set (m2 := if negb (map_has (opponentPid x) m1)
               then (m1 ++ [(opponentPid x,
                             if (winnerId x =? "p2")%string then win else loss)])%list
               else m1).
    assert (Hstep : forall (k : string) (r : Result) (m0 : list (string * Result)),
               In k pids -> NoDup (map fst m0) -> incl (map fst m0) pids ->
               let m' := if negb (map_has k m0) then (m0 ++ [(k, r)])%list else m0 in
               NoDup (map fst m') /\ incl (map fst m') pids
               /\ map_get c m'
                  = match map_get c m0 with
                    | Some y => Some y
                    | None => if (k =? c)%string then Some r else None
                    end).
    { intros k r m0 Hk Hnd0 Hincl0 m'. subst m'.
      destruct (map_has k m0) eqn:Hhas; cbn [negb].
      - split; [assumption|]. split; [assumption|].
        destruct (map_get c m0) eqn:Hg; [reflexivity|].
        destruct (k =? c)%string eqn:E; [|reflexivity].
        apply String.eqb_eq in E. subst k.
        apply map_has_get in Hhas. apply map_get_none in Hg. contradiction.
      - split; [|split; [|apply map_get_set]].
        + rewrite map_app. simpl.
          apply NoDup_app; [assumption|repeat constructor; intros []|].
          intros a Ha [<-|[]]. apply map_has_get in Ha. congruence.
        + rewrite map_app. apply incl_app; [assumption|].
          intros a [<-|[]]. exact Hk. }
    destruct (Hstep (challengerPid x)
                (if (winnerId x =? "p1")%string then win else loss) m
                Hcx Hnd Hincl) as (Hnd1 & Hincl1 & Hget1).
    cbv zeta in Hnd1, Hincl1, Hget1. fold m1 in Hnd1, Hincl1, Hget1.
    destruct (Hstep (opponentPid x)
                (if (winnerId x =? "p2")%string then win else loss) m1
                Hox Hnd1 Hincl1) as (Hnd2 & Hincl2 & Hget2).
    cbv zeta in Hnd2, Hincl2, Hget2. fold m2 in Hnd2, Hincl2, Hget2.
    assert (Hnow : map_get c m2
                   = match map_get c m with
                     | Some r => Some r
                     | None =>
                         if (challengerPid x =? c)%string
                         then Some (if (winnerId x =? "p1")%string then win else loss)
                         else if (opponentPid x =? c)%string
                         then Some (if (winnerId x =? "p2")%string then win else loss)
                         else None
                     end).
    { rewrite Hget2, Hget1. destruct (map_get c m); [reflexivity|].
      now destruct (challengerPid x =? c)%string. }
    destruct (length pids <=? length m2)%nat eqn:Hfull.
    + destruct (map_get c m) eqn:Hg; [exact Hnow|].
      destruct (challengerPid x =? c)%string eqn:Ec; [exact Hnow|].
      destruct (opponentPid x =? c)%string eqn:Eo; [exact Hnow|].
      rewrite Hnow.
      symmetry. apply firstResult_none. intros y Hy.
      apply Nat.leb_le in Hfull.
      assert (Hall : incl pids (map fst m2)).
      { apply NoDup_length_incl; [assumption| |assumption].
        now rewrite length_map. }
      assert (Hc : ~ In c (map fst m2)) by (now apply map_get_none).
      destruct (Hview y (or_intror Hy)) as [Hcy Hoy].
      split; intros E; apply Hc, Hall; congruence.
    + rewrite IH; auto; [|intros y Hy; apply Hview; now right].
      rewrite Hnow. destruct (map_get c m); [reflexivity|].
      destruct (challengerPid x =? c)%string; [reflexivity|].
      now destruct (opponentPid x =? c)%string.
Qed.

(** X24: when every participant of the matches in view is a player of the
    roster, the entry of [lastResultByPid] for a pid is the result of the
    first match in view that the player took part in, a win for the
    challenger when the winner is [p1] and for the opponent when it is
    [p2], and a pid without a match has no entry: the early exit of the
    loop, once the map is as long as the roster, hides no result. *)
Theorem lastResultByPid_is_the_first_result
    (view : list Match) (roster : list Player) (c : string) :
  (forall x, In x view ->
     In (challengerPid x) (map pid roster) /\ In (opponentPid x) (map pid roster)) ->
  map_get c (lastResultByPid view (length roster)) = firstResult c view.
Proof.
  intros Hview. unfold lastResultByPid.
  rewrite <- (length_map pid roster).
  rewrite (lastResultLoop_get view (map pid roster) [] c Hview).
  - reflexivity.
  - constructor.
  - intros a [].
Qed.

(* ================================================================= *)
(** * Histories: the counters are the aggregate of the log *)





Lemma pid_bumpStats a1 a2 a3 a4 a5 mk p : pid (bumpStats a1 a2 a3 a4 a5 mk p) = pid p.
Proof. destruct mk as [[]|]; reflexivity. Qed.





Lemma blankPlayer_erased (p q : Player) :
  erasePosition p = erasePosition q -> blankPlayer p = blankPlayer q.
Proof.
  intros H. unfold blankPlayer.
  change (pid p) with (pid (erasePosition p)).
  change (name p) with (name (erasePosition p)). now rewrite H.
Qed.




Section HistoryProperties.

Variable getMonth : string -> option Z.





End HistoryProperties.

Section HistoryInvariant.

Variable getMonth : string -> option Z.











End HistoryInvariant.

(* ================================================================= *)
(** * An edit that changes nothing *)



Section EditReplay.

Variable getMonth : string -> option Z.





End EditReplay.

(* ================================================================= *)
(** * The further properties on the sample data *)

Ltac counters_computed :=
  vm_compute; repeat (constructor; [repeat split; discriminate|]); constructor.

(** The upset of [p5] at position 2 on the sample roster: [p2] and [p3]
    move to the positions 3 and 4 and keep their order. *)
Lemma applyLadderMove_keeps_relative_order_witness :
  NoDup (map position roster5)
  /\ nth_error (mplayers (applyLadderMove roster5 "p5" 2)) 1
     = Some (setPosition 3 (namedPlayer 2))
  /\ nth_error (mplayers (applyLadderMove roster5 "p5" 2)) 2
     = Some (setPosition 4 (namedPlayer 3))
  /\ position (setPosition 3 (namedPlayer 2))
     < position (setPosition 4 (namedPlayer 3)).
Proof.
  assert (Hnd : NoDup (map position roster5)) by (vm_compute; nodup_literal).
  assert (Hi : nth_error (mplayers (applyLadderMove roster5 "p5" 2)) 1
               = Some (setPosition 3 (namedPlayer 2))) by (vm_compute; reflexivity).
  assert (Hj : nth_error (mplayers (applyLadderMove roster5 "p5" 2)) 2
               = Some (setPosition 4 (namedPlayer 3))) by (vm_compute; reflexivity).
  split; [exact Hnd|]. split; [exact Hi|]. split; [exact Hj|].
  apply (applyLadderMove_keeps_relative_order roster5 "p5" 2 1 2
           (namedPlayer 2) (namedPlayer 3)
           (setPosition 3 (namedPlayer 2)) (setPosition 4 (namedPlayer 3)) Hnd).
  - vm_compute; reflexivity.
  - vm_compute; reflexivity.
  - vm_compute; discriminate.
  - vm_compute; discriminate.
  - exact Hi.
  - exact Hj.
  - vm_compute; reflexivity.
Defined.

(** The upset repeated on the roster it produced is not applied. *)
Lemma applyLadderMove_twice_witness :
  applied (applyLadderMove roster5 "p5" 2) = true
  /\ applyLadderMove (mplayers (applyLadderMove roster5 "p5" 2)) "p5" 2
     = {| mplayers := mplayers (applyLadderMove roster5 "p5" 2); applied := false |}.
Proof.
  assert (H : applied (applyLadderMove roster5 "p5" 2) = true)
    by (vm_compute; reflexivity).
  split; [exact H|]. exact (applyLadderMove_twice roster5 "p5" 2 H).
Defined.

(** On the roster after the upset, the reversal followed by the move gives
    the roster after the upset again. *)
Lemma reverse_then_apply_restores_roster_witness :
  NoDup (map position afterFirstUpset)
  /\ find (pidIs "p5") afterFirstUpset = Some (setPosition 2 (namedPlayer 5))
  /\ applyLadderMove (reverseLadderMove afterFirstUpset "p5" 5 2) "p5" 2
     = {| mplayers := afterFirstUpset; applied := true |}.
Proof.
  assert (Hnd : NoDup (map position afterFirstUpset)) by (vm_compute; nodup_literal).
  assert (Hfind : find (pidIs "p5") afterFirstUpset
                  = Some (setPosition 2 (namedPlayer 5))) by (vm_compute; reflexivity).
  split; [exact Hnd|]. split; [exact Hfind|].
  apply (reverse_then_apply_restores_roster afterFirstUpset "p5" 5 2
           (setPosition 2 (namedPlayer 5)) Hnd Hfind); [reflexivity|lia].
Defined.

Lemma sample_ladder : Permutation (map position roster5) (positionsUpTo 5).
Proof.
  assert (H : map position roster5 = positionsUpTo 5) by (vm_compute; reflexivity).
  rewrite H. apply Permutation_refl.
Defined.

(** The positions after the upset are 1 to 5 again. *)
Lemma applyLadderMove_keeps_the_ladder_witness :
  NoDup (map pid roster5)
  /\ Permutation (map position roster5) (positionsUpTo 5)
  /\ Permutation (map position (mplayers (applyLadderMove roster5 "p5" 2)))
                 (positionsUpTo 5).
Proof.
  assert (Hpid : NoDup (map pid roster5)) by (vm_compute; nodup_literal).
  split; [exact Hpid|]. split; [exact sample_ladder|].
  apply (applyLadderMove_keeps_the_ladder roster5 "p5" 2 5 Hpid sample_ladder).
  lia.
Defined.

Lemma upset_accepted : actuallyAddMatch isoMonth upsetForm "m1" state0 = Next stateUpset.
Proof. vm_compute; reflexivity. Defined.

Lemma sample_well_formed : wellFormedRoster (players state0).
Proof.
  split; [vm_compute; nodup_literal|].
  split; [vm_compute; nodup_literal|]. counters_literal.
Defined.

(** The record of the upset. *)
Lemma actuallyAddMatch_record_witness :
  1 <= playerCount state0
  /\ actuallyAddMatch isoMonth upsetForm "m1" state0 = Next stateUpset
  /\ exists r, matches stateUpset = r :: matches state0
               /\ id r = "m1" /\ storedScoreValid r = true
               /\ (ladderMoveApplied r = true
                   <-> winnerId r = "p1" /\ opponentStartPos r < challengerStartPos r).
Proof.
  assert (Hc : 1 <= playerCount state0) by (vm_compute; discriminate).
  split; [exact Hc|]. split; [exact upset_accepted|].
  destruct (actuallyAddMatch_record isoMonth upsetForm "m1" state0 stateUpset
              Hc upset_accepted)
    as (r & p1 & p2 & Hlog & _ & Hid & _ & _ & _ & _ & Hvalid & _ & _ & _ & _
        & _ & _ & _ & _ & Hs1 & Hs2 & _ & _ & Hmove).
  exists r. rewrite Hs1, Hs2.
  split; [exact Hlog|]. split; [exact Hid|]. split; [exact Hvalid|]. exact Hmove.
Defined.

(** The roster after the upset is well formed, on the positions 1 to 5. *)
Lemma actuallyAddMatch_keeps_roster_well_formed_witness :
  wellFormedRoster (players state0)
  /\ actuallyAddMatch isoMonth upsetForm "m1" state0 = Next stateUpset
  /\ wellFormedRoster (players stateUpset)
  /\ Permutation (map position (players stateUpset)) (positionsUpTo 5).
Proof.
  split; [exact sample_well_formed|]. split; [exact upset_accepted|].
  destruct (actuallyAddMatch_keeps_roster_well_formed isoMonth upsetForm "m1"
              state0 stateUpset 5 sample_well_formed upset_accepted)
    as (Hwf & _ & _ & Hperm).
  split; [exact Hwf|]. apply Hperm. exact sample_ladder.
Defined.


(** The upset form with the opponent as the declared winner, another date
    and another surface is accepted as well. *)
Lemma actuallyAddMatch_accepts_any_winner_witness :
  actuallyAddMatch isoMonth upsetForm "m1" state0 = Next stateUpset
  /\ exists added',
       actuallyAddMatch isoMonth
         {| AddForm.locked := AddForm.locked upsetForm;
            AddForm.matchDate := "2026-07-01";
            AddForm.matchPos := AddForm.matchPos upsetForm;
            AddForm.challengerPid := AddForm.challengerPid upsetForm;
            AddForm.winner := "p2";
            AddForm.surface := "Grass";
            AddForm.score := AddForm.score upsetForm |} "m1" state0
       = Next added'.
Proof.
  split; [exact upset_accepted|].
  exact (actuallyAddMatch_accepts_any_winner isoMonth upsetForm "m1" state0
           stateUpset "p2" "2026-07-01" "Grass" upset_accepted).
Defined.


Lemma upset_counters : Forall countersNonNegative (players stateUpset).
Proof. counters_computed. Defined.


(** The delete of the upset keeps the five players and takes the match
    off their counters. *)
Lemma deleteTransaction_keeps_the_players_witness :
  Forall countersNonNegative (players stateUpset)
  /\ playerCount (deleteTransaction isoMonth "m1" stateUpset) = playerCount stateUpset
  /\ Forall2 (fun p q =>
                pid q = pid p /\ name q = name p
                /\ 0 <= matchesPlayed q <= matchesPlayed p
                /\ 0 <= matchesWon q <= matchesWon p
                /\ 0 <= setsWon q <= setsWon p
                /\ 0 <= setsLost q <= setsLost p
                /\ 0 <= gamesWon q <= gamesWon p
                /\ 0 <= gamesLost q <= gamesLost p
                /\ forall k, 0 <= monthCount k q <= monthCount k p)
             (players stateUpset)
             (players (deleteTransaction isoMonth "m1" stateUpset)).
Proof.
  split; [exact upset_counters|].
  exact (deleteTransaction_keeps_the_players isoMonth "m1" stateUpset
           upset_counters).
Defined.

Lemma sample_edit_accepted :
  actuallySaveEdit isoMonth sampleEdit stateUpset = Next stateEdited.
Proof. vm_compute; reflexivity. Defined.

(** The edit of the upset keeps the log under its ids. *)
Lemma actuallySaveEdit_keeps_the_log_witness :
  actuallySaveEdit isoMonth sampleEdit stateUpset = Next stateEdited
  /\ map id (matches stateEdited) = map id (matches stateUpset)
  /\ map pid (players stateEdited) = map pid (players stateUpset)
  /\ exists r, matches stateEdited = [r]
               /\ score r = "5-7 3-6" /\ storedScoreValid r = true.
Proof.
  split; [exact sample_edit_accepted|].
  destruct (actuallySaveEdit_keeps_the_log isoMonth sampleEdit stateUpset
              stateEdited sample_edit_accepted)
    as (m & r & _ & Hlog & Hids & _ & _ & _ & _ & _ & _ & Hscore & Hvalid & _
        & _ & Hpids & _).
  split; [exact Hids|]. split; [exact Hpids|].
  exists r. split; [|split; [|exact Hvalid]].
  - rewrite Hlog. vm_compute. reflexivity.
  - rewrite Hscore. vm_compute. reflexivity.
Defined.

(** The record [m9] with a single set on its stored score cannot be
    edited. *)
Lemma actuallySaveEdit_needs_a_valid_stored_score_witness :
  find (fun x => (id x =? editId shortScoreEdit)%string) (matches stateShortScore)
  = Some shortScoreRecord
  /\ storedScoreValid shortScoreRecord = false
  /\ actuallySaveEdit isoMonth shortScoreEdit stateShortScore
     = Failed "Stored score invalid; can't edit safely.".
Proof.
  assert (Hfind : find (fun x => (id x =? editId shortScoreEdit)%string)
                       (matches stateShortScore) = Some shortScoreRecord)
    by (vm_compute; reflexivity).
  assert (Hbad : storedScoreValid shortScoreRecord = false)
    by (vm_compute; reflexivity).
  split; [exact Hfind|]. split; [exact Hbad|].
  apply (proj2 (actuallySaveEdit_needs_a_valid_stored_score isoMonth
                  shortScoreEdit stateShortScore shortScoreRecord Hfind Hbad));
    vm_compute; reflexivity.
Defined.


Lemma default_ladder :
  Permutation (map position (players defaultState)) (positionsUpTo CAPACITY).
Proof.
  assert (H : map position (players defaultState) = positionsUpTo CAPACITY)
    by (vm_compute; reflexivity).
  rewrite H. apply Permutation_refl.
Defined.

(** The roster of the default state, saved and loaded. *)
Lemma load_after_save_restores_the_roster_witness :
  Permutation (map position (players defaultState)) (positionsUpTo CAPACITY)
  /\ Permutation (players (fetchCloudState (pRows (players defaultState)) [] None))
                 (players defaultState).
Proof.
  split; [exact default_ladder|].
  exact (proj1 (load_after_save_restores_the_roster (players defaultState)
                  (pRows (players defaultState)) [] None default_ladder
                  (Permutation_refl _))).
Defined.

(** The record of the upset, saved and loaded. *)
Lemma load_after_save_restores_a_match_witness :
  (winnerId upsetRecord = "p1" \/ winnerId upsetRecord = "p2")
  /\ positionPlayedFor upsetRecord <> 0
  /\ matchFromRow (mRow upsetRecord) = upsetRecord.
Proof.
  assert (Hw : winnerId upsetRecord = "p1" \/ winnerId upsetRecord = "p2")
    by (left; reflexivity).
  assert (Hp : positionPlayedFor upsetRecord <> 0) by (vm_compute; discriminate).
  split; [exact Hw|]. split; [exact Hp|].
  exact (load_after_save_restores_a_match upsetRecord Hw Hp).
Defined.


(** After the upset the last result of [p5] is a win. *)
Lemma lastResultByPid_is_the_first_result_witness :
  (forall x, In x (matches stateUpset) ->
     In (challengerPid x) (map pid roster5) /\ In (opponentPid x) (map pid roster5))
  /\ map_get "p5" (lastResultByPid (matches stateUpset) (length roster5))
     = firstResult "p5" (matches stateUpset)
  /\ firstResult "p5" (matches stateUpset) = Some win.
Proof.
  assert (H : forall x, In x (matches stateUpset) ->
            In (challengerPid x) (map pid roster5)
            /\ In (opponentPid x) (map pid roster5)).
  { intros x Hx. vm_compute in Hx. destruct Hx as [<-|[]].
    vm_compute. tauto. }
  split; [exact H|]. split; [|vm_compute; reflexivity].
  exact (lastResultByPid_is_the_first_result (matches stateUpset) roster5 "p5" H).
Defined.




